(** * HotSpot [BasicHashtable] / [Hashtable]: a shallow embedding of
      src/hotspot/share/utilities/hashtable.cpp

    The C++ member functions are written as computations in a state and
    error monad over a [World]: the table object ([this]), the entry
    storage reachable through entry pointers, the answers the C heap is
    going to give, and the output produced so far. *)

From Stdlib Require Import ZArith Lia.
From stdpp Require Import gmap list strings.

Local Open Scope Z_scope.

(** ** Machine integers *)

(** [int] is 32 bits wide, two's complement; [unsigned int] is 32 bits. *)
Definition INT_MAX : Z := 2 ^ 31 - 1.
Definition to_int (z : Z) : Z := (z + 2 ^ 31) mod 2 ^ 32 - 2 ^ 31.
Definition to_uint (z : Z) : Z := z mod 2 ^ 32.

(** ** Outcomes of a call *)

Inductive vm_error : Type :=
| UndefinedBehaviour                 (* null or wild dereference, x / 0, bad shift *)
| AssertionFailed (msg : string)     (* assert(...) in a debug build *)
| OutOfMemoryExit                    (* vm_exit_out_of_memory *)
| GuaranteeFailed (msg : string)     (* guarantee(...) *)
| EntryVerifyFailed (entry : Z)      (* the per-entry verify() hook gave up *)
| OutOfFuel.                         (* the model stopped following a chain *)

Inductive result (A : Type) : Type :=
| Ret (a : A)
| Err (e : vm_error).
Arguments Ret {A} a.
Arguments Err {A} e.

(** ** Pointers *)

Definition NULL : Z := 0.

(** Modelled from the spec: [HeapWordSize] comes from globalDefinitions.hpp,
    which is not part of the sources at hand; it is the size of a machine word
    on a 64-bit VM. *)
Definition HeapWordSize : Z := 8.

(** Modelled from the spec: [BasicHashtableEntry::make_ptr] (hashtable.hpp).
    The entry keeps its shared flag in bit 0 of the next-link word; the
    link proper is the word with that bit cleared. *)
Definition make_ptr (p : Z) : Z := Z.land p (-2).

(** Bit 0 of a link word, as [is_shared] reads it. *)
Definition shared_bit (n : Z) : bool := negb (Z.land n 1 =? 0).

(** Entries lie at even addresses, which leaves bit 0 of a link free. *)
Definition aligned (p : Z) : Prop := Z.land p 1 = 0.

(** Modelled from the spec: [log2_int] (globalDefinitions.hpp): the largest
    [i] with [2^i <= x], computed on the argument converted to an unsigned
    machine word; [-1] at zero. *)
Definition log2_int (x : Z) : Z :=
  if x =? 0 then -1 else if x <? 0 then 63 else Z.log2 x.

(** [1 << k] on [int]: only shifts that keep a non-negative [int] are defined. *)
Definition shl_one (k : Z) : result Z :=
  if (0 <=? k) && (k <? 31) then Ret (Z.shiftl 1 k) else Err UndefinedBehaviour.

(** Modelled from the spec: [BasicHashtable::hash_to_index] (hashtable.hpp):
    the bucket of a hash is [hash mod table_size], for the table size of the
    moment.  The operands are [unsigned int] and [int]: the remainder is taken
    on unsigned values and handed back as an [int]. *)
Definition bucket_index (table_size : Z) (full_hash : Z) : result Z :=
  if to_uint table_size =? 0 then Err UndefinedBehaviour
  else Ret (to_int (to_uint full_hash mod to_uint table_size)).

(** [a / b] on [int]: truncating, undefined at zero and where the quotient
    does not fit. *)
Definition int_div (a b : Z) : result Z :=
  if (b =? 0) || ((a =? - 2 ^ 31) && (b =? -1)) then Err UndefinedBehaviour
  else Ret (Z.quot a b).

(** [AllocFailStrategy] (memory/allocation.hpp): what an allocation does
    when the C heap has nothing to give. *)
Inductive AllocFailType : Type := EXIT_OOM | RETURN_NULL.


Section Hashtable.

(** The literal type of [Hashtable<T, F>]. *)
Context {T : Type}.

(** [true] for a debug build, where [assert] is compiled in. *)
Variable ASSERT : bool.

(** The failure mode of the allocation macros that name none,
    [NEW_C_HEAP_ARRAY] and [NEW_C_HEAP_ARRAY2].  They are defined in
    memory/allocation.hpp, which is not part of the sources at hand, and
    stay a parameter; HotSpot's leave the VM ([EXIT_OOM]). *)
Variable alloc_failmode : AllocFailType.

(** ** Data *)

(** An entry as it lies in storage.  A field that was never written holds
    nothing one may rely on: [None]. *)
Record Entry : Type := mkEntry {
  _hash : option Z;      (* unsigned int _hash *)
  _next : option Z;      (* BasicHashtableEntry* _next, bit 0: shared *)
  _literal : option T    (* T _literal, of HashtableEntry<T, F> *)
}.

(** Storage that was never written. *)
Definition raw_entry : Entry :=
  {| _hash := None; _next := None; _literal := None |}.

(** The fields of [BasicHashtable<F>] that hashtable.cpp reads or writes. *)
Record BasicHashtable : Type := mkTable {
  _table_size : Z;            (* int *)
  _buckets : list Z;          (* HashtableBucket<F>*: the heads, by index *)
  _free_list : Z;             (* BasicHashtableEntry<F>* *)
  _first_free_entry : Z;      (* char* *)
  _end_block : Z;             (* char* *)
  _entry_size : Z;            (* int *)
  _number_of_entries : Z;     (* volatile int *)
  _entry_blocks : list Z      (* GrowableArray<char*>* *)
}.

(** What a call leaves behind for the outside: calls of the verify hook and
    log lines. *)
Inductive event : Type :=
| VerifyEntry (probe : Z)
| LogInfo (table_name : string)
          (max_bucket_count max_bucket_number element_count table_size : Z)
| LogDebugProbe (index hash : Z)
| LogDebugBucket (index bucket_count : Z).

(** Everything a member function can read or change. *)
Record World : Type := mkWorld {
  this : BasicHashtable;
  heap : gmap Z Entry;
  c_heap : list Z;            (* what os::malloc returns next; NULL on failure *)
  at_safepoint : bool;        (* SafepointSynchronize::is_at_safepoint() *)
  log_debug_enabled : bool;   (* log_is_enabled(Debug, hashtables) *)
  output : list event
}.

Definition with_this (t : BasicHashtable) (w : World) : World :=
  mkWorld t (heap w) (c_heap w) (at_safepoint w) (log_debug_enabled w) (output w).
Definition with_heap (h : gmap Z Entry) (w : World) : World :=
  mkWorld (this w) h (c_heap w) (at_safepoint w) (log_debug_enabled w) (output w).
Definition with_c_heap (c : list Z) (w : World) : World :=
  mkWorld (this w) (heap w) c (at_safepoint w) (log_debug_enabled w) (output w).
Definition with_output (o : list event) (w : World) : World :=
  mkWorld (this w) (heap w) (c_heap w) (at_safepoint w) (log_debug_enabled w) o.

Definition with_table_size (n : Z) (t : BasicHashtable) : BasicHashtable :=
  mkTable n (_buckets t) (_free_list t) (_first_free_entry t) (_end_block t)
          (_entry_size t) (_number_of_entries t) (_entry_blocks t).
Definition with_buckets (b : list Z) (t : BasicHashtable) : BasicHashtable :=
  mkTable (_table_size t) b (_free_list t) (_first_free_entry t) (_end_block t)
          (_entry_size t) (_number_of_entries t) (_entry_blocks t).
Definition with_free_list (p : Z) (t : BasicHashtable) : BasicHashtable :=
  mkTable (_table_size t) (_buckets t) p (_first_free_entry t) (_end_block t)
          (_entry_size t) (_number_of_entries t) (_entry_blocks t).
Definition with_first_free_entry (p : Z) (t : BasicHashtable) : BasicHashtable :=
  mkTable (_table_size t) (_buckets t) (_free_list t) p (_end_block t)
          (_entry_size t) (_number_of_entries t) (_entry_blocks t).
Definition with_end_block (p : Z) (t : BasicHashtable) : BasicHashtable :=
  mkTable (_table_size t) (_buckets t) (_free_list t) (_first_free_entry t) p
          (_entry_size t) (_number_of_entries t) (_entry_blocks t).
Definition with_number_of_entries (n : Z) (t : BasicHashtable) : BasicHashtable :=
  mkTable (_table_size t) (_buckets t) (_free_list t) (_first_free_entry t)
          (_end_block t) (_entry_size t) n (_entry_blocks t).
Definition with_entry_blocks (l : list Z) (t : BasicHashtable) : BasicHashtable :=
  mkTable (_table_size t) (_buckets t) (_free_list t) (_first_free_entry t)
          (_end_block t) (_entry_size t) (_number_of_entries t) l.

(** ** The monad *)

Definition M (A : Type) : Type := World -> result (A * World).

Definition ret {A} (a : A) : M A := fun w => Ret (a, w).
Definition fail {A} (e : vm_error) : M A := fun _ => Err e.
Definition bind {A B} (c : M A) (k : A -> M B) : M B :=
  fun w => match c w with
           | Ret (a, w') => k a w'
           | Err e => Err e
           end.

Notation "x <- c ;; k" := (bind c (fun x => k))
  (at level 20, c at level 99, k at level 200, only parsing).
Notation "c ;; k" := (bind c (fun _ => k))
  (at level 100, k at level 200, right associativity, only parsing).

Definition gets {A} (f : World -> A) : M A := fun w => Ret (f w, w).
Definition modify (f : World -> World) : M unit := fun w => Ret (tt, f w).
Definition modify_this (f : BasicHashtable -> BasicHashtable) : M unit :=
  modify (fun w => with_this (f (this w)) w).
Definition lift {A} (r : result A) : M A :=
  fun w => match r with Ret a => Ret (a, w) | Err e => Err e end.

(** [assert(cond, msg)]: checked in a debug build only. *)
Definition assert (cond : bool) (msg : string) : M unit :=
  if ASSERT && negb cond then fail (AssertionFailed msg) else ret tt.

(** [guarantee(cond, msg)]: checked in every build. *)
Definition guarantee (cond : bool) (msg : string) : M unit :=
  if cond then ret tt else fail (GuaranteeFailed msg).

(** One more event of the output. *)
Definition emit (e : event) : M unit :=
  modify (fun w => with_output (output w ++ [e]) w).

(** [for (int i = from; i < from + n; i++) locals = body(i, locals)]: the
    loop, with the local variables its body updates. *)
Fixpoint for_loop {S : Type} (n : nat) (i : Z) (body : Z -> S -> M S) (locals : S) : M S :=
  match n with
  | O => ret locals
  | S n' => locals' <- body i locals ;; for_loop n' (i + 1) body locals'
  end.

(** ** Entry accessors (hashtable.hpp) *)

(** Reading through an entry pointer. *)
Definition load (p : Z) : M Entry :=
  fun w => if p =? NULL then Err UndefinedBehaviour
           else match heap w !! p with
                | Some e => Ret (e, w)
                | None => Err UndefinedBehaviour
                end.

(** Writing one field through an entry pointer; storage that holds no entry
    yet is raw. *)
Definition store (p : Z) (f : Entry -> Entry) : M unit :=
  fun w => if p =? NULL then Err UndefinedBehaviour
           else Ret (tt, with_heap (<[p := f (default raw_entry (heap w !! p))]> (heap w)) w).

(** Reading a field: a field never written has no value to read. *)
Definition field {A} (o : option A) : M A :=
  match o with Some a => ret a | None => fail UndefinedBehaviour end.

(** The accessors of [BasicHashtableEntry] and [HashtableEntry] are declared
    in hashtable.hpp, which is not part of the sources at hand.  An entry has
    a hash, a literal, a next-link and a shared flag; the flag lives in bit 0
    of the link word, so that [set_next] overwrites it and [resize] has to
    put it back. *)

(** Modelled from the spec: [BasicHashtableEntry::hash()] (hashtable.hpp). *)
Definition entry_hash (p : Z) : M Z := e <- load p ;; field (_hash e).

(** Modelled from the spec: [BasicHashtableEntry::set_hash()] (hashtable.hpp). *)
Definition entry_set_hash (p : Z) (h : Z) : M unit :=
  store p (fun e => mkEntry (Some h) (_next e) (_literal e)).

(** Modelled from the spec: [HashtableEntry::literal()] (hashtable.hpp). *)
Definition entry_literal (p : Z) : M T := e <- load p ;; field (_literal e).

(** Modelled from the spec: [HashtableEntry::set_literal()] (hashtable.hpp). *)
Definition entry_set_literal (p : Z) (obj : T) : M unit :=
  store p (fun e => mkEntry (_hash e) (_next e) (Some obj)).

(** Modelled from the spec: [BasicHashtableEntry::next()] (hashtable.hpp):
    the link without the shared flag. *)
Definition entry_next (p : Z) : M Z :=
  e <- load p ;; n <- field (_next e) ;; ret (make_ptr n).

(** Modelled from the spec: [BasicHashtableEntry::set_next()] (hashtable.hpp):
    the whole link word is replaced. *)
Definition entry_set_next (p : Z) (next : Z) : M unit :=
  store p (fun e => mkEntry (_hash e) (Some next) (_literal e)).

(** Modelled from the spec: [BasicHashtableEntry::is_shared()] (hashtable.hpp). *)
Definition entry_is_shared (p : Z) : M bool :=
  e <- load p ;; n <- field (_next e) ;; ret (shared_bit n).

(** Modelled from the spec: [BasicHashtableEntry::set_shared()] (hashtable.hpp):
    bit 0 of the link word is set. *)
Definition entry_set_shared (p : Z) : M unit :=
  e <- load p ;; n <- field (_next e) ;;
  store p (fun e => mkEntry (_hash e) (Some (Z.lor n 1)) (_literal e)).

(** ** Table accessors (hashtable.hpp, hashtable.inline.hpp) *)

(** Modelled from the spec: [BasicHashtable::table_size()] (hashtable.hpp). *)
Definition table_size : M Z := gets (fun w => _table_size (this w)).

(** Modelled from the spec: [BasicHashtable::number_of_entries()]
    (hashtable.hpp). *)
Definition number_of_entries : M Z := gets (fun w => _number_of_entries (this w)).

(** Modelled from the spec: [BasicHashtable::entry_size()] (hashtable.hpp). *)
Definition entry_size : M Z := gets (fun w => _entry_size (this w)).

(** [array[i]] for a C array held as a list. *)
Definition index {A} (l : list A) (i : Z) : M A :=
  if i <? 0 then fail UndefinedBehaviour
  else match l !! Z.to_nat i with
       | Some a => ret a
       | None => fail UndefinedBehaviour
       end.

(** Modelled from the spec: [BasicHashtable::bucket(i)]
    (hashtable.inline.hpp), that is [_buckets[i].get_entry()]. *)
Definition bucket (i : Z) : M Z :=
  b <- gets (fun w => _buckets (this w)) ;; index b i.

(** ** The C heap (memory/allocation.hpp) *)

(** [os::malloc]: the next answer of the C heap; the null pointer when it
    has nothing to give. *)
Definition os_malloc : M Z :=
  fun w => match c_heap w with
           | [] => Ret (NULL, w)
           | p :: rest => Ret (p, with_c_heap rest w)
           end.

(** Modelled from the spec: [AllocateHeap] is defined in allocation.inline.hpp,
    which is not part of the sources at hand.  When the C heap has nothing to
    give, an allocation either leaves the VM or hands the null pointer to
    the caller, as its failure mode says. *)
Definition AllocateHeap (size : Z) (mode : AllocFailType) : M Z :=
  p <- os_malloc ;;
  if (p =? NULL) && (match mode with EXIT_OOM => true | RETURN_NULL => false end)
  then fail OutOfMemoryExit
  else ret p.

(** [NEW_C_HEAP_ARRAY2(type, size, memflags, pc)]: no failure mode given. *)
Definition NEW_C_HEAP_ARRAY2 (elem_size count : Z) : M Z :=
  AllocateHeap (count * elem_size) alloc_failmode.

(** [NEW_C_HEAP_ARRAY(type, size, memflags)]: no failure mode given. *)
Definition NEW_C_HEAP_ARRAY (elem_size count : Z) : M Z :=
  AllocateHeap (count * elem_size) alloc_failmode.

(** [NEW_C_HEAP_ARRAY2_RETURN_NULL(type, size, memflags, pc)]. *)
Definition NEW_C_HEAP_ARRAY2_RETURN_NULL (elem_size count : Z) : M Z :=
  AllocateHeap (count * elem_size) RETURN_NULL.

(** Modelled from the spec: [BasicHashtable::hash_to_index] is defined in
    hashtable.hpp; it reads [_table_size] at the time of the call. *)
Definition hash_to_index (full_hash : Z) : M Z :=
  ts <- table_size ;; lift (bucket_index ts full_hash).

(** ** hashtable.cpp *)

(** Lines 49-56. *)
Definition new_entry_free_list : M Z :=
  fl <- gets (fun w => _free_list (this w)) ;;
  if negb (fl =? NULL) then
    n <- entry_next fl ;;
    modify_this (with_free_list n) ;;
    ret fl
  else ret NULL.

(** Line 64: the number of entries the next block is laid out for. *)
Definition new_block_size (t : BasicHashtable) : Z :=
  Z.min 512 (Z.max (Z.quot (_table_size t) 2) (_number_of_entries t)).

(** Lines 59-79: [BasicHashtable<F>::new_entry]. *)
Definition new_entry (hashValue : Z) : M Z :=
  entry <- new_entry_free_list ;;
  entry <- (if entry =? NULL then
              t <- gets this ;;
              (if _first_free_entry t + _entry_size t >=? _end_block t then
                 let block_size := new_block_size t in
                 let len := to_int (_entry_size t * block_size) in
                 len <- lift (shl_one (log2_int len)) ;;
                 assert (len >=? _entry_size t) "" ;;
                 p <- NEW_C_HEAP_ARRAY2 1 len ;;
                 modify_this (with_first_free_entry p) ;;
                 modify_this (fun t => with_entry_blocks (_entry_blocks t ++ [p]) t) ;;
                 modify_this (with_end_block (p + len))
               else ret tt) ;;
              entry <- gets (fun w => _first_free_entry (this w)) ;;
              modify_this (fun t => with_first_free_entry (entry + _entry_size t) t) ;;
              ret entry
            else ret entry) ;;
  es <- entry_size ;;
  assert (Z.rem es HeapWordSize =? 0) "" ;;
  entry_set_hash entry hashValue ;;
  ret entry.

(** Lines 82-88: [Hashtable<T, F>::new_entry]. *)
Definition Hashtable_new_entry (hashValue : Z) (obj : T) : M Z :=
  entry <- new_entry hashValue ;;
  entry_set_literal entry obj ;;
  ret entry.

(** Lines 94-101. *)
Definition allocate_new_entry (hashValue : Z) (obj : T) : M Z :=
  es <- entry_size ;;
  entry <- NEW_C_HEAP_ARRAY 1 es ;;
  entry_set_hash entry hashValue ;;
  entry_set_literal entry obj ;;
  entry_set_next entry NULL ;;
  ret entry.

(** Lines 103-106. *)
Definition free_buckets : M unit := modify_this (with_buckets []).

(** Lines 154-166: the walk along one old chain. [buckets_new] is the array
    under construction. *)
Fixpoint move_entries (fuel : nat) (p : Z) (buckets_new : list Z) : M (list Z) :=
  match fuel with
  | O => fail OutOfFuel
  | S fuel' =>
      if p =? NULL then ret buckets_new
      else
        next <- entry_next p ;;
        keep_shared <- entry_is_shared p ;;
        h <- entry_hash p ;;
        index_new <- hash_to_index h ;;
        head <- index buckets_new index_new ;;
        entry_set_next p head ;;
        let buckets_new := <[Z.to_nat index_new := p]> buckets_new in
        (if keep_shared : bool then entry_set_shared p else ret tt) ;;
        move_entries fuel' next buckets_new
  end.

(** Lines 134-176.  The words of the fresh array mean nothing before they
    are cleared. *)
Definition resize (fuel : nat) (new_size : Z) : M bool :=
  sp <- gets at_safepoint ;;
  assert sp "must be at safepoint" ;;
  buckets_new <- NEW_C_HEAP_ARRAY2_RETURN_NULL 8 new_size ;;
  if buckets_new =? NULL then ret false
  else
    buckets_new <- for_loop (Z.to_nat new_size) 0
                     (fun i b => ret (<[Z.to_nat i := NULL]> b))
                     (replicate (Z.to_nat new_size) (-1)) ;;
    table_size_old <- table_size ;;
    modify_this (with_table_size new_size) ;;
    buckets_new <- for_loop (Z.to_nat table_size_old) 0
                     (fun index_old b =>
                        p <- bucket index_old ;; move_entries fuel p b)
                     buckets_new ;;
    free_buckets ;;
    modify_this (with_buckets buckets_new) ;;
    ret true.

(** Lines 178-190. *)
Definition maybe_grow (fuel : nat) (max_size load_factor : Z) : M bool :=
  sp <- gets at_safepoint ;;
  assert sp "must be at safepoint" ;;
  ts <- table_size ;;
  if ts >=? max_size then ret false
  else
    n <- number_of_entries ;;
    load <- lift (int_div n ts) ;;
    if load >? load_factor then
      resize fuel (Z.min (to_int (ts * 2)) max_size) ;;
      ret true
    else ret false.

(** [probe->verify()]: the hook of the concrete table, which either comes
    back or fails loudly. *)
Variable entry_verify : gmap Z Entry -> Z -> bool.

Definition probe_verify (probe : Z) : M unit :=
  emit (VerifyEntry probe) ;;
  ok <- gets (fun w => entry_verify (heap w) probe) ;;
  if ok : bool then ret tt else fail (EntryVerifyFailed probe).

(** Lines 250-253. *)
Fixpoint verify_chain (fuel : nat) (probe : Z) (bucket_count : Z) : M Z :=
  match fuel with
  | O => fail OutOfFuel
  | S fuel' =>
      if probe =? NULL then ret bucket_count
      else
        probe_verify probe ;;
        let bucket_count := to_int (bucket_count + 1) in
        next <- entry_next probe ;;
        verify_chain fuel' next bucket_count
  end.

(** Lines 269-272. *)
Fixpoint debug_chain (fuel : nat) (index : Z) (probe : Z) (bucket_count : Z) : M Z :=
  match fuel with
  | O => fail OutOfFuel
  | S fuel' =>
      if probe =? NULL then ret bucket_count
      else
        h <- entry_hash probe ;;
        emit (LogDebugProbe index h) ;;
        let bucket_count := to_int (bucket_count + 1) in
        next <- entry_next probe ;;
        debug_chain fuel' index next bucket_count
  end.

(** Lines 245-259: the pass that calls the hook and counts. *)
Definition count_entries (fuel : nat) : M (Z * Z * Z) :=
  ts <- table_size ;;
  for_loop (Z.to_nat ts) 0
    (fun index '(element_count, max_bucket_count, max_bucket_number) =>
       probe <- bucket index ;;
       bucket_count <- verify_chain fuel probe 0 ;;
       let element_count := to_int (element_count + bucket_count) in
       if bucket_count >? max_bucket_count
       then ret (element_count, bucket_count, index)
       else ret (element_count, max_bucket_count, max_bucket_number))
    (0, 0, 0).

(** Lines 267-276: the trace of a table with entries, when debug logging
    is on. *)
Definition debug_trace (fuel : nat) : M unit :=
  ts <- table_size ;;
  for_loop (Z.to_nat ts) 0
    (fun index (_ : unit) =>
       probe <- bucket index ;;
       bucket_count <- debug_chain fuel index probe 0 ;;
       if bucket_count >? 0 then emit (LogDebugBucket index bucket_count)
       else ret tt)
    tt.

(** Lines 243-278. *)
Definition verify_table (fuel : nat) (table_name : string) : M unit :=
  counts <- count_entries fuel ;;
  let '(element_count, max_bucket_count, max_bucket_number) := counts in
  n <- number_of_entries ;;
  guarantee (n =? element_count) ("Verify of " +:+ table_name +:+ " failed") ;;
  ts <- table_size ;;
  emit (LogInfo table_name max_bucket_count max_bucket_number n ts) ;;
  dbg <- gets log_debug_enabled ;;
  if (n >? 0) && dbg then debug_trace fuel else ret tt.

(** ** Insertion (hashtable.inline.hpp) *)

(** Modelled from the spec: [BasicHashtable::add_entry] is defined in
    hashtable.inline.hpp, which is not part of the sources at hand: the
    entry becomes the new head of the chain of its bucket and
    [number_of_entries] goes up by one. *)
Definition add_entry (i : Z) (entry : Z) : M unit :=
  head <- bucket i ;;
  entry_set_next entry head ;;
  modify_this (fun t => with_buckets (<[Z.to_nat i := entry]> (_buckets t)) t) ;;
  modify_this (fun t => with_number_of_entries (to_int (_number_of_entries t + 1)) t).

(** Modelled from the spec: insertion as the concrete tables do it: take an
    entry from the allocator with hash and payload set, and link it into the
    bucket of its hash.  No lookup for duplicates. *)
Definition insert (hashValue : Z) (obj : T) : M Z :=
  entry <- Hashtable_new_entry hashValue obj ;;
  i <- hash_to_index hashValue ;;
  add_entry i entry ;;
  ret entry.

(** A run of insertions, one after the other. *)
Fixpoint insert_all (l : list (Z * T)) : M unit :=
  match l with
  | [] => ret tt
  | (hashValue, obj) :: l' => insert hashValue obj ;; insert_all l'
  end.

(** ** Statistics *)

(** [literal_size(l)] for the payload type of the table: the overload of
    lines 109-132 that the instantiation picks, an [int]. *)
Variable literal_size : T -> Z.

(** The [literal_load_barrier] argument of [statistics_calculate]: a null
    function pointer, or a function that is handed the entry. *)
Variable literal_load_barrier : option (Z -> M T).

(** Line 200: the payload comes from the barrier if there is one, from the
    entry otherwise. *)
Definition load_literal (e : Z) : M T :=
  match literal_load_barrier with
  | Some barrier => barrier e
  | None => entry_literal e
  end.

(** Modelled from the spec: [NumberSeq] (numberSeq.hpp) keeps a running
    distribution of the numbers it is given; here it is the list of these
    numbers in the order of the [add] calls, from which count, mean,
    variance and maximum follow. *)
Definition NumberSeq : Type := list Z.

Definition NumberSeq_add (summary : NumberSeq) (val : Z) : NumberSeq :=
  summary ++ [val].

(** Lines 197-202: the walk along one chain. *)
Fixpoint statistics_chain (fuel : nat) (e : Z) (count literal_bytes : Z)
  : M (Z * Z) :=
  match fuel with
  | O => fail OutOfFuel
  | S fuel' =>
      if e =? NULL then ret (count, literal_bytes)
      else
        let count := to_int (count + 1) in
        l <- load_literal e ;;
        let literal_bytes := to_int (literal_bytes + literal_size l) in
        next <- entry_next e ;;
        statistics_chain fuel' next count literal_bytes
  end.

(** Lines 192-206.  The result is what the function computes for the
    constructor of [TableStatistics]: the summary and the bytes of the
    literals; the other arguments of the constructor are the rate counter
    of the table and two [sizeof] constants. *)
Definition statistics_calculate (fuel : nat) : M (NumberSeq * Z) :=
  ts <- table_size ;;
  for_loop (Z.to_nat ts) 0
    (fun i '(summary, literal_bytes) =>
       e <- bucket i ;;
       r <- statistics_chain fuel e 0 literal_bytes ;;
       let '(count, literal_bytes) := r in
       ret (NumberSeq_add summary count, literal_bytes))
    ([], 0).

(** The sum of a list of numbers. *)
Definition total (l : list Z) : Z := foldr Z.add 0 l.

(** ** What a table holds *)

(** [chain h p l]: following the links from [p] one meets the entries at the
    addresses [l], in this order, and then the null pointer. *)
Inductive chain (h : gmap Z Entry) : Z -> list Z -> Prop :=
| chain_nil : chain h NULL []
| chain_cons (p : Z) (e : Entry) (n hv : Z) (l : list Z) :
    p <> NULL -> aligned p ->
    h !! p = Some e -> _next e = Some n -> _hash e = Some hv ->
    chain h (make_ptr n) l ->
    chain h p (p :: l).

(** The table of world [w] holds the chains [chains], bucket by bucket, and
    every entry is on one chain only. *)
Record table_ok (w : World) (chains : list (list Z)) : Prop := mkTableOk {
  ok_chains : Forall2 (chain (heap w)) (_buckets (this w)) chains;
  ok_size : Z.of_nat (length (_buckets (this w))) = _table_size (this w);
  ok_nodup : NoDup (concat chains)
}.

(** What one sees of the entry at [p]: hash, payload and shared flag. *)
Definition entry_view (h : gmap Z Entry) (p : Z) : option (Z * option T * bool) :=
  match h !! p with
  | Some e =>
      match _hash e, _next e with
      | Some hv, Some n => Some (hv, _literal e, shared_bit n)
      | _, _ => None
      end
  | None => None
  end.

(** The entries of a table, as a list over all chains. *)
Definition entries (h : gmap Z Entry) (chains : list (list Z))
  : list (option (Z * option T * bool)) :=
  entry_view h <$> concat chains.

(** The entry at [p] shows the same hash, payload and shared flag in [h0]
    and in [h]; its link may differ. *)
Definition same_entry (h0 h : gmap Z Entry) (p : Z) : Prop :=
  exists e e' n n',
    h0 !! p = Some e /\ h !! p = Some e' /\
    _hash e' = _hash e /\ _literal e' = _literal e /\
    _next e = Some n /\ _next e' = Some n' /\ shared_bit n' = shared_bit n.

(** The bucket an entry belongs to in a table of [n] buckets. *)
Definition slot (h : gmap Z Entry) (n : Z) (p : Z) : nat :=
  match h !! p with
  | Some e =>
      match _hash e with
      | Some hv => Z.to_nat (to_uint hv mod n)
      | None => O
      end
  | None => O
  end.

(** The chain of bucket [j] once the entries [l] have been moved, one after
    the other, to the front of their new chain. *)
Definition regroup (h : gmap Z Entry) (n : Z) (l : list Z) (j : nat) : list Z :=
  reverse (filter (fun p => slot h n p = j) l).

(** The state in the middle of the move of [resize]: the entries [done] are
    on their new chains in [bn], the others are as they were in [h0]. *)
Record moved (h0 : gmap Z Entry) (n : Z) (done : list Z)
    (h : gmap Z Entry) (bn : list Z) : Prop := mkMoved {
  moved_length : length bn = Z.to_nat n;
  moved_chains : forall (j : nat) (hd : Z),
      bn !! j = Some hd -> chain h hd (regroup h0 n done j);
  moved_rest : forall a : Z, a ∉ done -> h !! a = h0 !! a;
  moved_same : forall a : Z, a ∈ done -> same_entry h0 h a
}.

(** The world after a [resize] to [new_size] that put the heads [bn] in
    place and left the entries as in [h]. *)
Definition resized (new_size : Z) (h : gmap Z Entry) (bn : list Z)
    (rest : list Z) (w : World) : World :=
  mkWorld (with_buckets bn (with_table_size new_size (this w))) h rest
          (at_safepoint w) (log_debug_enabled w) (output w).

(** The chains of a table of [n] buckets that was filled by moving the
    entries [l] in this order. *)
Definition rehashed (h : gmap Z Entry) (n : Z) (l : list Z) : list (list Z) :=
  regroup h n l <$> seq 0 (Z.to_nat n).

(** [post c w Q]: if [c] returns from [w], the result and the world it
    leaves satisfy [Q]. *)
Definition post {A : Type} (c : M A) (w : World) (Q : A -> World -> Prop) : Prop :=
  forall a w', c w = Ret (a, w') -> Q a w'.

End Hashtable.

(** * Worked tables *)

(** A table of two buckets with three entries: the entries at 16 and 48
    carry the shared flag in bit 0 of their link word. *)
Definition ex_heap : gmap Z (@Entry Z) :=
  <[16 := mkEntry (Some 4) (Some 33) (Some 100)]>
  (<[32 := mkEntry (Some 6) (Some 0) (Some 200)]>
  (<[48 := mkEntry (Some 7) (Some 1) (Some 300)]> ∅)).

(** Its table object: bucket 0 holds the chain 16, 32 and bucket 1 the
    entry 48. *)
Definition ex_table : BasicHashtable :=
  mkTable 2 [16; 48] NULL 0 0 16 3 [].

(** The table at a safepoint, with one block left in the C heap. *)
Definition ex_world : @World Z :=
  mkWorld ex_table ex_heap [4096] true true [].

(** The chains of the worked table. *)
Definition ex_chains : list (list Z) := [[16; 32]; [48]].

(** The same table when the C heap has nothing left. *)
Definition ex_world_oom : @World Z := with_c_heap [] ex_world.

(** A table with 16 byte entries, no entry and no block yet. *)
Definition fresh_table (buckets : nat) : BasicHashtable :=
  mkTable (Z.of_nat buckets) (replicate buckets NULL) NULL 0 0 16 0 [].

(** The world of a fresh table, at a safepoint, with the C heap answers [c]. *)
Definition fresh_world (buckets : nat) (c : list Z) : @World Z :=
  mkWorld (fresh_table buckets) ∅ c true true [].

(** Three entries were laid out in the 64 byte block at 4096: the cursor is
    at 4144, the block ends at 4160, 16 bytes are left. *)
Definition last_slot_world : @World Z :=
  mkWorld (mkTable 10 (replicate 10 NULL) NULL 4144 4160 16 0 [4096])
          (<[4096 := mkEntry (Some 1) None None]>
           (<[4112 := mkEntry (Some 2) None None]>
            (<[4128 := mkEntry (Some 3) None None]> ∅)))
          [8192] true true [].

(** Insertions of the hashes [0 .. n - 1], the payload being the hash times
    100. *)
Definition hashes (n : nat) : list (Z * Z) :=
  (fun i : nat => (Z.of_nat i, Z.of_nat i * 100)) <$> seq 0 n.

(** Block addresses the C heap hands out, 4096 bytes apart. *)
Definition blocks (n : nat) : list Z :=
  (fun i : nat => 4096 * (Z.of_nat i + 1)) <$> seq 0 n.

(** A table whose allocator has two entries on its free list, the one at 64
    first, and no room in a block. *)
Definition free_list_world : @World Z :=
  mkWorld (mkTable 10 (replicate 10 NULL) 64 0 0 16 0 [4096])
          (<[64 := mkEntry (Some 5) (Some 96) (Some 500)]>
           (<[96 := mkEntry (Some 6) (Some 0) (Some 600)]> ∅))
          [] true true [].

(** One entry was laid out in the 64 byte block at 4096: the cursor is at
    4112, 48 bytes are left. *)
Definition block_world : @World Z :=
  mkWorld (mkTable 10 (replicate 10 NULL) NULL 4112 4160 16 0 [4096])
          (<[4096 := mkEntry (Some 1) None None]> ∅)
          [8192] true true [].

(** A fresh table of two buckets with entries of 24 bytes. *)
Definition short_block_world : @World Z :=
  mkWorld (mkTable 2 [NULL; NULL] NULL 0 0 24 0 []) ∅ [4096] true true [].

(** The worked table with two blocks left in the C heap. *)
Definition ex_world_two_blocks : @World Z := with_c_heap [4096; 8192] ex_world.

(** The world a run leaves behind, [w] if the run fails. *)
Definition world_after {A : Type} (r : result (A * @World Z)) (w : @World Z)
  : @World Z :=
  match r with
  | Ret (_, w') => w'
  | Err _ => w
  end.

(** A hook that fails for the entry at 32 only. *)
Definition ex_verify (h : gmap Z (@Entry Z)) (p : Z) : bool := negb (p =? 32).

(** The payloads of the worked table, by address. *)
Definition ex_literal (p : Z) : Z :=
  if p =? 16 then 100 else if p =? 32 then 200 else 300.

(** A payload size as for symbols: the payload is a number of words. *)
Definition ex_literal_size (words : Z) : Z := words * HeapWordSize.

(** * Proofs *)

(** ** Bits and machine integers *)

Lemma testbit_one (i : Z) : 0 <= i -> Z.testbit 1 i = (i =? 0).
Proof.
  intros Hi. destruct i as [|i|i]; [reflexivity| |lia].
  destruct i; reflexivity.
Qed.

Lemma testbit_minus_two (i : Z) : 0 <= i -> Z.testbit (-2) i = negb (i =? 0).
Proof.
  intros Hi. change (-2) with (Z.lnot 1).
  rewrite Z.lnot_spec by assumption. now rewrite testbit_one.
Qed.

Lemma aligned_bit0 (p : Z) : aligned p <-> Z.testbit p 0 = false.
Proof.
  unfold aligned. split; intros H.
  - assert (E : Z.testbit (Z.land p 1) 0 = false) by (rewrite H; reflexivity).
    rewrite Z.land_spec in E. simpl in E. now rewrite andb_true_r in E.
  - apply Z.bits_inj'. intros i Hi.
    rewrite Z.land_spec, testbit_one, Z.bits_0 by assumption.
    destruct (Z.eqb_spec i 0) as [->|]; [now rewrite H | apply andb_false_r].
Qed.

Lemma aligned_NULL : aligned NULL.
Proof. reflexivity. Qed.

Lemma aligned_make_ptr (n : Z) : aligned (make_ptr n).
Proof.
  apply aligned_bit0. unfold make_ptr.
  rewrite Z.land_spec. apply andb_false_r.
Qed.

Lemma make_ptr_aligned (p : Z) : aligned p -> make_ptr p = p.
Proof.
  intros H%aligned_bit0. unfold make_ptr. apply Z.bits_inj'. intros i Hi.
  rewrite Z.land_spec, testbit_minus_two by assumption.
  destruct (Z.eqb_spec i 0) as [->|]; [now rewrite H | apply andb_true_r].
Qed.

Lemma make_ptr_set_shared (p : Z) : aligned p -> make_ptr (Z.lor p 1) = p.
Proof.
  intros H%aligned_bit0. unfold make_ptr. apply Z.bits_inj'. intros i Hi.
  rewrite Z.land_spec, Z.lor_spec, testbit_minus_two, testbit_one by assumption.
  destruct (Z.eqb_spec i 0) as [->|].
  - now rewrite H.
  - cbn [negb]. now rewrite orb_false_r, andb_true_r.
Qed.

Lemma shared_bit_aligned (p : Z) : aligned p -> shared_bit p = false.
Proof. unfold aligned, shared_bit. now intros ->. Qed.

Lemma shared_bit_set_shared (p : Z) : shared_bit (Z.lor p 1) = true.
Proof.
  unfold shared_bit.
  assert (E : Z.testbit (Z.land (Z.lor p 1) 1) 0 = true).
  { rewrite Z.land_spec, Z.lor_spec. cbn [Z.testbit Z.odd].
    rewrite andb_true_r. apply orb_true_r. }
  destruct (Z.eqb_spec (Z.land (Z.lor p 1) 1) 0) as [E0|]; [|reflexivity].
  rewrite E0 in E. discriminate.
Qed.

Lemma to_int_small (z : Z) : - 2 ^ 31 <= z <= INT_MAX -> to_int z = z.
Proof.
  unfold to_int, INT_MAX. intros H.
  rewrite Z.mod_small by lia. lia.
Qed.

Lemma bucket_index_range (n hv : Z) :
  0 < n <= INT_MAX ->
  bucket_index n hv = Ret (to_uint hv mod n) /\ 0 <= to_uint hv mod n < n.
Proof.
  unfold INT_MAX. intros Hn. unfold bucket_index.
  assert (En : to_uint n = n) by (unfold to_uint; apply Z.mod_small; lia).
  rewrite En. destruct (Z.eqb_spec n 0) as [|_]; [lia|].
  pose proof (Z.mod_pos_bound (to_uint hv) n ltac:(lia)) as Hb.
  split; [|exact Hb].
  f_equal. apply to_int_small. unfold INT_MAX. lia.
Qed.

Section Proofs.

Context {T : Type}.
Variable ASSERT : bool.

Implicit Types (w : @World T) (h : gmap Z (@Entry T)) (e : @Entry T).
Implicit Types (p n hv : Z) (l done : list Z) (bn : list Z).

(** ** One step of a computation *)

Lemma bind_Ret {A B : Type} (c : @M T A) (k : A -> @M T B) w a w' :
  c w = Ret (a, w') -> bind c k w = k a w'.
Proof. unfold bind. now intros ->. Qed.

Lemma NULL_eqb p : p <> NULL -> (p =? NULL) = false.
Proof. intros H. now apply Z.eqb_neq. Qed.

Lemma load_ok w p e :
  p <> NULL -> heap w !! p = Some e -> load p w = Ret (e, w).
Proof. intros Hp He. unfold load. now rewrite NULL_eqb, He. Qed.

Lemma entry_next_ok w p e n :
  p <> NULL -> heap w !! p = Some e -> _next e = Some n ->
  entry_next p w = Ret (make_ptr n, w).
Proof.
  intros Hp He Hn. unfold entry_next.
  rewrite (bind_Ret _ _ _ _ _ (load_ok _ _ _ Hp He)). now rewrite Hn.
Qed.

Lemma entry_is_shared_ok w p e n :
  p <> NULL -> heap w !! p = Some e -> _next e = Some n ->
  entry_is_shared p w = Ret (shared_bit n, w).
Proof.
  intros Hp He Hn. unfold entry_is_shared.
  rewrite (bind_Ret _ _ _ _ _ (load_ok _ _ _ Hp He)). now rewrite Hn.
Qed.

Lemma entry_hash_ok w p e hv :
  p <> NULL -> heap w !! p = Some e -> _hash e = Some hv ->
  entry_hash p w = Ret (hv, w).
Proof.
  intros Hp He Hh. unfold entry_hash.
  rewrite (bind_Ret _ _ _ _ _ (load_ok _ _ _ Hp He)). now rewrite Hh.
Qed.

Lemma store_ok w p e (f : Entry -> Entry) :
  p <> NULL -> heap w !! p = Some e ->
  store p f w = Ret (tt, with_heap (<[p := f e]> (heap w)) w).
Proof. intros Hp He. unfold store. now rewrite NULL_eqb, He. Qed.

Lemma hash_to_index_ok w hv :
  0 < _table_size (this w) <= INT_MAX ->
  hash_to_index hv w = Ret (to_uint hv mod _table_size (this w), w).
Proof.
  intros Hn. unfold hash_to_index, table_size, gets, bind, lift.
  now destruct (bucket_index_range _ hv Hn) as [-> _].
Qed.

Lemma index_ok {A : Type} (a : A) (l : list A) (i : nat) w :
  l !! i = Some a -> index l (Z.of_nat i) w = Ret (a, w).
Proof.
  intros H. unfold index.
  destruct (Z.ltb_spec (Z.of_nat i) 0); [lia|].
  now rewrite Nat2Z.id, H.
Qed.

(** [set_next] followed by the conditional [set_shared]: the link is
    replaced and the flag survives. *)
Lemma relink_ok {B : Type} (k : @M T B) w p e n head :
  p <> NULL -> heap w !! p = Some e -> _next e = Some n -> aligned head ->
  exists n',
    make_ptr n' = head /\ shared_bit n' = shared_bit n /\
    bind (entry_set_next p head)
         (fun _ => bind (if shared_bit n then entry_set_shared p else ret tt)
                        (fun _ => k)) w
    = k (with_heap (<[p := mkEntry (_hash e) (Some n') (_literal e)]> (heap w)) w).
Proof.
  intros Hp He Hn Hal.
  unfold entry_set_next.
  rewrite (bind_Ret _ _ _ _ _ (store_ok _ _ _ _ Hp He)).
  destruct (shared_bit n) eqn:Hs.
  - exists (Z.lor head 1). split; [|split].
    + now apply make_ptr_set_shared.
    + apply shared_bit_set_shared.
    + unfold entry_set_shared.
      set (w1 := with_heap _ w).
      assert (H1 : heap w1 !! p = Some (mkEntry (_hash e) (Some head) (_literal e)))
        by apply lookup_insert_eq.
      unfold bind at 1. unfold bind at 1.
      rewrite (load_ok _ _ _ Hp H1). cbn [_next field].
      unfold bind at 1. unfold ret at 1.
      rewrite (store_ok _ _ _ _ Hp H1). unfold w1, with_heap. cbn.
      now rewrite insert_insert_eq.
  - exists head. split; [|split].
    + now apply make_ptr_aligned.
    + now apply shared_bit_aligned.
    + reflexivity.
Qed.

(** ** Chains *)

Lemma chain_frame h h' p l :
  chain h p l -> (forall a, a ∈ l -> h' !! a = h !! a) -> chain h' p l.
Proof.
  induction 1 as [|p e n hv l Hp Hal He Hn Hh Hc IH]; intros Hsame.
  - constructor.
  - econstructor; eauto.
    + rewrite Hsame; [exact He | apply list_elem_of_here].
    + apply IH. intros a Ha. apply Hsame. now apply list_elem_of_further.
Qed.

Lemma chain_aligned h p l : chain h p l -> aligned p.
Proof. destruct 1; [apply aligned_NULL | assumption]. Qed.

Lemma chain_not_NULL h p l : chain h p l -> NULL ∉ l.
Proof.
  induction 1 as [|p e n hv l Hp Hal He Hn Hh Hc IH].
  - apply not_elem_of_nil.
  - intros [E|H]%elem_of_cons; [now apply Hp | now apply IH].
Qed.

Lemma regroup_snoc_here h n done p :
  regroup h n (done ++ [p]) (slot h n p) = p :: regroup h n done (slot h n p).
Proof.
  unfold regroup. rewrite filter_app, filter_cons_True by reflexivity.
  rewrite filter_nil. now rewrite reverse_snoc.
Qed.

Lemma regroup_snoc_other h n done p (j : nat) :
  slot h n p <> j -> regroup h n (done ++ [p]) j = regroup h n done j.
Proof.
  intros Hne. unfold regroup.
  rewrite filter_app, filter_cons_False by exact Hne.
  now rewrite filter_nil, app_nil_r.
Qed.

Lemma elem_of_regroup h n l (j : nat) a :
  a ∈ regroup h n l j <-> a ∈ l /\ slot h n a = j.
Proof.
  unfold regroup. rewrite elem_of_reverse, list_elem_of_filter. tauto.
Qed.

(** ** The move of [resize] *)

Lemma with_heap_id w : with_heap (heap w) w = w.
Proof. now destruct w. Qed.

Lemma move_entries_spec h0 l :
  forall (fuel : nat) p w bn done,
    0 < _table_size (this w) <= INT_MAX ->
    chain (heap w) p l ->
    (length l < fuel)%nat ->
    NoDup (done ++ l) ->
    moved h0 (_table_size (this w)) done (heap w) bn ->
    exists h' bn',
      move_entries fuel p bn w = Ret (bn', with_heap h' w) /\
      moved h0 (_table_size (this w)) (done ++ l) h' bn'.
Proof.
  induction l as [|a l IH]; intros fuel p w bn done Hn Hc Hfuel Hnd Hmv.
  - inversion Hc; subst.
    destruct fuel as [|fuel]; [simpl in Hfuel; lia|].
    exists (heap w), bn. rewrite app_nil_r, with_heap_id. now split.
  - inversion Hc as [|p' e n hv l' Hp Hal He Hnx Hh Hc']; subst.
    destruct fuel as [|fuel]; [simpl in Hfuel; lia|].
    destruct Hmv as [Hlen Hch Hrest Hsame].
    set (N := _table_size (this w)) in *.
    assert (Ha_done : a ∉ done).
    { intros Hin. apply NoDup_app in Hnd as (_ & Hdis & _).
      apply (Hdis a Hin). apply list_elem_of_here. }
    assert (Ha_l : a ∉ l).
    { apply NoDup_app in Hnd as (_ & _ & Hl). now apply NoDup_cons in Hl as []. }
    assert (He0 : h0 !! a = Some e) by (rewrite <- (Hrest a Ha_done); exact He).
    pose proof (Z.mod_pos_bound (to_uint hv) N ltac:(lia)) as Hb.
    assert (Hslot : slot h0 N a = Z.to_nat (to_uint hv mod N)).
    { unfold slot. now rewrite He0, Hh. }
    destruct (lookup_lt_is_Some_2 bn (slot h0 N a)) as [head Hhead].
    { rewrite Hlen, Hslot. lia. }
    pose proof (Hch _ _ Hhead) as Hc_head.
    cbn [move_entries]. rewrite (NULL_eqb _ Hp).
    rewrite (bind_Ret _ _ _ _ _ (entry_next_ok _ _ _ _ Hp He Hnx)).
    rewrite (bind_Ret _ _ _ _ _ (entry_is_shared_ok _ _ _ _ Hp He Hnx)).
    rewrite (bind_Ret _ _ _ _ _ (entry_hash_ok _ _ _ _ Hp He Hh)).
    rewrite (bind_Ret _ _ _ _ _ (hash_to_index_ok _ hv Hn)).
    fold N.
    replace (to_uint hv mod N) with (Z.of_nat (slot h0 N a)) by (rewrite Hslot; lia).
    rewrite (bind_Ret _ _ _ _ _ (index_ok _ _ (slot h0 N a) _ Hhead)).
    rewrite Nat2Z.id.
    destruct (relink_ok (move_entries fuel (make_ptr n) (<[slot h0 N a := a]> bn))
                w a e n head Hp He Hnx (chain_aligned _ _ _ Hc_head))
      as (n' & Hmp & Hsb & ->).
    set (e' := mkEntry (_hash e) (Some n') (_literal e)).
    set (h1 := <[a := e']> (heap w)).
    destruct (IH fuel (make_ptr n) (with_heap h1 w) (<[slot h0 N a := a]> bn)
                (done ++ [a])) as (h' & bn' & Hrun & Hmv').
    + exact Hn.
    + apply (chain_frame (heap w)); [exact Hc'|].
      intros b Hb'. apply lookup_insert_ne. intros ->. now apply Ha_l.
    + simpl in Hfuel. lia.
    + now rewrite <- app_assoc.
    + split.
      * now rewrite length_insert.
      * intros j hd Hj. destruct (decide (j = slot h0 N a)) as [->|Hne].
        -- rewrite list_lookup_insert_eq in Hj by (rewrite Hlen, Hslot; lia).
           injection Hj as <-. rewrite regroup_snoc_here.
           apply (chain_cons h1 a e' n' hv); try assumption.
           ++ apply lookup_insert_eq.
           ++ reflexivity.
           ++ rewrite Hmp. apply (chain_frame (heap w)); [exact Hc_head|].
              intros b Hb'. apply lookup_insert_ne. intros ->.
              apply elem_of_regroup in Hb' as [Hb' _]. now apply Ha_done.
        -- assert (Hne' : slot h0 N a <> j) by (intros E; now apply Hne).
           rewrite list_lookup_insert_ne in Hj by exact Hne'.
           rewrite regroup_snoc_other by exact Hne'.
           apply (chain_frame (heap w)); [now apply Hch|].
           intros b Hb'. apply lookup_insert_ne. intros ->.
           apply elem_of_regroup in Hb' as [Hb' _]. now apply Ha_done.
      * intros b Hb'. cbn. unfold h1. rewrite lookup_insert_ne.
        -- apply Hrest. intros Hin. apply Hb', elem_of_app. now left.
        -- intros ->. apply Hb', elem_of_app. right. apply list_elem_of_here.
      * intros b [Hb'|Hb']%elem_of_app.
        -- destruct (Hsame b Hb') as (eb & eb' & nb & nb' & H1 & H2 & H3).
           exists eb, eb', nb, nb'. split; [exact H1|]. split; [|exact H3].
           cbn. unfold h1. rewrite lookup_insert_ne; [exact H2|].
           intros ->. now apply Ha_done.
        -- apply list_elem_of_singleton in Hb' as ->.
           exists e, e', n, n'. cbn. unfold h1. rewrite lookup_insert_eq.
           repeat split; try assumption; reflexivity.
    + exists h', bn'. split.
      * exact Hrun.
      * now rewrite <- app_assoc in Hmv'.
Qed.

(** The loop over the old buckets (lines 153-167). *)
Lemma move_buckets_spec h0 (fuel : nat) (bs : list Z) (chains : list (list Z)) :
  Forall2 (chain h0) bs chains ->
  forall (i : nat) w bn done,
    0 < _table_size (this w) <= INT_MAX ->
    drop i (_buckets (this w)) = bs ->
    (length (concat chains) < fuel)%nat ->
    NoDup (done ++ concat chains) ->
    moved h0 (_table_size (this w)) done (heap w) bn ->
    exists h' bn',
      for_loop (length bs) (Z.of_nat i)
        (fun index_old b => bind (bucket index_old) (fun p => move_entries fuel p b))
        bn w
      = Ret (bn', with_heap h' w) /\
      moved h0 (_table_size (this w)) (done ++ concat chains) h' bn'.
Proof.
  induction 1 as [|b c bs chains Hc _ IH]; intros i w bn done Hn Hdrop Hfuel Hnd Hmv.
  - exists (heap w), bn. cbn. rewrite app_nil_r, with_heap_id. now split.
  - cbn [concat] in *. rewrite length_app in Hfuel.
    assert (Hb : _buckets (this w) !! i = Some b).
    { rewrite <- (Nat.add_0_r i), <- lookup_drop, Hdrop. reflexivity. }
    assert (Hc_now : chain (heap w) b c).
    { apply (chain_frame h0); [exact Hc|].
      intros a Ha. apply (moved_rest _ _ _ _ _ Hmv).
      intros Hin. apply NoDup_app in Hnd as (_ & Hdis & _).
      apply (Hdis a Hin), elem_of_app. now left. }
    destruct (move_entries_spec h0 c fuel b w bn done) as (h1 & bn1 & Hrun1 & Hmv1);
      [exact Hn | exact Hc_now | lia | | exact Hmv |].
    { rewrite app_assoc in Hnd. now apply NoDup_app in Hnd as (Hnd & _). }
    destruct (IH (S i) (with_heap h1 w) bn1 (done ++ c)) as (h' & bn' & Hrun & Hmv');
      [exact Hn | | lia | now rewrite <- app_assoc | exact Hmv1 |].
    { cbn. rewrite (drop_S _ _ _ Hb) in Hdrop. now injection Hdrop. }
    exists h', bn'. split; [|now rewrite <- app_assoc in Hmv'].
    cbn [length for_loop].
    assert (Hbucket : bucket (Z.of_nat i) w = Ret (b, w)).
    { unfold bucket, gets, bind. now apply index_ok. }
    unfold bind at 1. unfold bind at 1. rewrite Hbucket, Hrun1.
    replace (Z.of_nat i + 1) with (Z.of_nat (S i)) by lia.
    exact Hrun.
Qed.

(** The loop that clears the new buckets (lines 144-146). *)
Lemma clear_buckets_spec (n : nat) :
  forall (i : nat) (b : list Z) w,
    length b = (i + n)%nat ->
    for_loop n (Z.of_nat i) (fun i b => ret (<[Z.to_nat i := NULL]> b)) b w
    = Ret (take i b ++ replicate n NULL, w).
Proof.
  induction n as [|n IH]; intros i b w Hlen.
  - cbn. rewrite app_nil_r, take_ge by lia. reflexivity.
  - cbn [for_loop]. unfold bind at 1, ret at 1.
    replace (Z.of_nat i + 1) with (Z.of_nat (S i)) by lia.
    rewrite IH by (rewrite length_insert; lia).
    rewrite Nat2Z.id.
    rewrite (take_S_r _ _ NULL) by (apply list_lookup_insert_eq; lia).
    rewrite take_insert_ge by lia.
    now rewrite <- app_assoc.
Qed.

Lemma assert_ok (cond : bool) (msg : string) w :
  cond = true -> assert ASSERT cond msg w = Ret (tt, w).
Proof. intros ->. unfold assert. now rewrite andb_false_r. Qed.

Lemma resize_spec w (chains : list (list Z)) (new_size : Z) (fuel : nat)
    (buckets_new : Z) (rest : list Z) :
  table_ok w chains ->
  at_safepoint w = true ->
  0 < new_size <= INT_MAX ->
  c_heap w = buckets_new :: rest ->
  buckets_new <> NULL ->
  (length (concat chains) < fuel)%nat ->
  exists h' bn',
    resize ASSERT fuel new_size w = Ret (true, resized new_size h' bn' rest w) /\
    moved (heap w) new_size (concat chains) h' bn'.
Proof.
  intros [Hch Hsz Hnd] Hsp Hn Hmalloc Hnn Hfuel.
  set (w1 := with_this (with_table_size new_size (this w)) (with_c_heap rest w)).
  destruct (move_buckets_spec (heap w) fuel (_buckets (this w)) chains Hch
              O w1 (replicate (Z.to_nat new_size) NULL) [])
    as (h' & bn' & Hrun & Hmv).
  - exact Hn.
  - reflexivity.
  - exact Hfuel.
  - exact Hnd.
  - split.
    + apply length_replicate.
    + intros j hd [-> _]%lookup_replicate_1.
      unfold regroup. rewrite filter_nil. constructor.
    + reflexivity.
    + intros a Ha. now apply not_elem_of_nil in Ha.
  - exists h', bn'. split; [|exact Hmv].
    unfold resize.
    unfold bind at 1, gets at 1. rewrite Hsp.
    rewrite (bind_Ret _ _ _ _ _ (assert_ok true _ w eq_refl)).
    assert (Halloc : NEW_C_HEAP_ARRAY2_RETURN_NULL 8 new_size w
                     = Ret (buckets_new, with_c_heap rest w)).
    { unfold NEW_C_HEAP_ARRAY2_RETURN_NULL, AllocateHeap, bind, os_malloc.
      rewrite Hmalloc. now rewrite andb_false_r. }
    rewrite (bind_Ret _ _ _ _ _ Halloc), (NULL_eqb _ Hnn).
    pose proof (clear_buckets_spec (Z.to_nat new_size) O
                  (replicate (Z.to_nat new_size) (-1)) (with_c_heap rest w)
                  (length_replicate _ _)) as Hclear.
    cbn [take app Z.of_nat] in Hclear.
    rewrite (bind_Ret _ _ _ _ _ Hclear).
    unfold bind at 1, table_size at 1, gets at 1.
    unfold bind at 1, modify_this at 1, modify at 1.
    change (with_this _ (with_c_heap rest w)) with w1.
    change (_table_size (this (with_c_heap rest w))) with (_table_size (this w)).
    rewrite <- Hsz, Nat2Z.id.
    change (Z.of_nat 0) with 0 in Hrun.
    rewrite (bind_Ret _ _ _ _ _ Hrun).
    reflexivity.
Qed.

(** ** The table after [resize] *)

Lemma slot_lt h (n : Z) p : 0 < n -> (slot h n p < Z.to_nat n)%nat.
Proof.
  intros Hn. unfold slot.
  destruct (h !! p) as [e|]; [|lia].
  destruct (_hash e) as [hv|]; [|lia].
  pose proof (Z.mod_pos_bound (to_uint hv) n Hn). lia.
Qed.

Lemma filter_slot_split h (n : Z) (N : nat) l :
  filter (fun p => (slot h n p < N)%nat) l ++ filter (fun p => slot h n p = N) l
  ≡ₚ filter (fun p => (slot h n p < S N)%nat) l.
Proof.
  induction l as [|a l IH]; [reflexivity|].
  rewrite !filter_cons.
  destruct (decide (slot h n a < N)%nat), (decide (slot h n a = N)),
    (decide (slot h n a < S N)%nat); try lia; cbn.
  - now rewrite IH.
  - rewrite <- IH. symmetry. apply Permutation_middle.
  - exact IH.
Qed.

Lemma rehashed_below h (n : Z) l (N : nat) :
  concat (regroup h n l <$> seq 0 N) ≡ₚ filter (fun p => (slot h n p < N)%nat) l.
Proof.
  induction N as [|N IH].
  - cbn. induction l as [|a l IHl]; [reflexivity|].
    rewrite filter_cons_False by lia. exact IHl.
  - rewrite seq_S, fmap_app, concat_app, IH. cbn. rewrite app_nil_r.
    unfold regroup. rewrite reverse_Permutation. apply filter_slot_split.
Qed.

Lemma rehashed_Permutation h (n : Z) l :
  0 < n -> concat (rehashed h n l) ≡ₚ l.
Proof.
  intros Hn. unfold rehashed. rewrite rehashed_below.
  induction l as [|a l IH]; [reflexivity|].
  rewrite filter_cons_True by now apply slot_lt.
  now rewrite IH.
Qed.

Lemma rehashed_lookup h (n : Z) l (j : nat) c :
  rehashed h n l !! j = Some c -> c = regroup h n l j.
Proof.
  unfold rehashed. rewrite list_lookup_fmap.
  destruct (seq 0 (Z.to_nat n) !! j) as [j'|] eqn:E; [|discriminate].
  apply lookup_seq in E as [-> _]. cbn. congruence.
Qed.

Lemma moved_table_ok w (chains : list (list Z)) (new_size : Z) h' bn' rest :
  0 < new_size ->
  NoDup (concat chains) ->
  moved (heap w) new_size (concat chains) h' bn' ->
  table_ok (resized new_size h' bn' rest w)
           (rehashed (heap w) new_size (concat chains)).
Proof.
  intros Hn Hnd [Hlen Hch _ _]. split; cbn.
  - apply Forall2_same_length_lookup_2.
    + unfold rehashed. now rewrite length_fmap, length_seq.
    + intros j hd c Hj Hc. apply rehashed_lookup in Hc as ->. now apply Hch.
  - rewrite Hlen. lia.
  - now rewrite rehashed_Permutation.
Qed.

Lemma same_entry_view (h0 h : gmap Z (@Entry T)) p :
  same_entry h0 h p -> entry_view h p = entry_view h0 p.
Proof.
  intros (e & e' & n & n' & H0 & H1 & Hh & Hl & Hn & Hn' & Hs).
  unfold entry_view. rewrite H0, H1, Hh, Hl, Hn, Hn', Hs. reflexivity.
Qed.

(** Every entry on a chain has its hash and its link in place. *)
Lemma chain_view h p l a :
  chain h p l -> a ∈ l -> is_Some (entry_view h a).
Proof.
  induction 1 as [|p e n hv l Hp Hal He Hn Hh Hc IH].
  - intros H. now apply not_elem_of_nil in H.
  - intros [->|H]%elem_of_cons; [|now apply IH].
    unfold entry_view. rewrite He, Hn, Hh. eauto.
Qed.

(** An entry of the table lies on the chain of some bucket. *)
Lemma chains_elem h (bs : list Z) (chains : list (list Z)) p :
  Forall2 (chain h) bs chains -> p ∈ concat chains ->
  exists b c, chain h b c /\ p ∈ c.
Proof.
  induction 1 as [|b c bs chains Hc _ IH]; cbn.
  - intros H. now apply not_elem_of_nil in H.
  - intros [H|H]%elem_of_app; [now exists b, c | now apply IH].
Qed.

(** ** Claims about [resize] *)

(** C1: a successful [resize] to a positive size keeps the entries of the
    table: the hash, payload and shared flag of the entries form the same
    multiset before and after, the same entries are on the chains, and each
    of them shows the hash, the payload and the shared flag it had. *)
Theorem resize_preserves_entries w (chains : list (list Z)) (new_size : Z)
    (fuel : nat) (buckets_new : Z) (rest : list Z) :
  table_ok w chains ->
  at_safepoint w = true ->
  0 < new_size <= INT_MAX ->
  c_heap w = buckets_new :: rest ->
  buckets_new <> NULL ->
  (length (concat chains) < fuel)%nat ->
  exists w' chains',
    resize ASSERT fuel new_size w = Ret (true, w') /\
    table_ok w' chains' /\
    entries (heap w') chains' ≡ₚ entries (heap w) chains /\
    concat chains' ≡ₚ concat chains /\
    (forall p, p ∈ concat chains -> same_entry (heap w) (heap w') p).
Proof.
  intros Hok Hsp Hn Hmalloc Hnn Hfuel.
  destruct (resize_spec w chains new_size fuel buckets_new rest
              Hok Hsp Hn Hmalloc Hnn Hfuel) as (h' & bn' & Hrun & Hmv).
  exists (resized new_size h' bn' rest w),
         (rehashed (heap w) new_size (concat chains)).
  assert (Hperm : concat (rehashed (heap w) new_size (concat chains))
                  ≡ₚ concat chains) by (apply rehashed_Permutation; lia).
  split; [exact Hrun|]. split; [|split; [|split]].
  - apply moved_table_ok; [lia | apply (ok_nodup _ _ Hok) | exact Hmv].
  - unfold entries. rewrite Hperm. cbn [heap resized].
    rewrite (Forall_fmap_ext_1 (entry_view h') (entry_view (heap w)) (concat chains));
      [reflexivity|].
    apply Forall_forall.
    intros p Hp. apply same_entry_view, (moved_same _ _ _ _ _ Hmv), Hp.
  - exact Hperm.
  - intros p Hp. apply (moved_same _ _ _ _ _ Hmv), Hp.
Qed.

(** C2: after a successful [resize] every entry of the table lies on the
    chain of the bucket that [hash_to_index] gives for its hash, and
    [hash_to_index] works with the new table size. *)
Theorem resize_rehashes w (chains : list (list Z)) (new_size : Z)
    (fuel : nat) (buckets_new : Z) (rest : list Z) :
  table_ok w chains ->
  at_safepoint w = true ->
  0 < new_size <= INT_MAX ->
  c_heap w = buckets_new :: rest ->
  buckets_new <> NULL ->
  (length (concat chains) < fuel)%nat ->
  exists w' chains',
    resize ASSERT fuel new_size w = Ret (true, w') /\
    table_ok w' chains' /\
    concat chains' ≡ₚ concat chains /\
    table_size w' = Ret (new_size, w') /\
    (forall (j : nat) c p,
        chains' !! j = Some c -> p ∈ c ->
        exists hv, entry_hash p w' = Ret (hv, w') /\
                   hash_to_index hv w' = Ret (Z.of_nat j, w') /\
                   bucket_index new_size hv = Ret (Z.of_nat j)).
Proof.
  intros Hok Hsp Hn Hmalloc Hnn Hfuel.
  destruct (resize_spec w chains new_size fuel buckets_new rest
              Hok Hsp Hn Hmalloc Hnn Hfuel) as (h' & bn' & Hrun & Hmv).
  set (w' := resized new_size h' bn' rest w).
  exists w', (rehashed (heap w) new_size (concat chains)).
  pose proof (moved_table_ok w chains new_size h' bn' rest ltac:(lia)
                (ok_nodup _ _ Hok) Hmv) as Hok'.
  split; [exact Hrun|]. split; [exact Hok'|]. split; [|split].
  - apply rehashed_Permutation; lia.
  - reflexivity.
  - intros j c p Hc Hp. apply rehashed_lookup in Hc as ->.
    apply elem_of_regroup in Hp as [Hp Hslot].
    destruct (moved_same _ _ _ _ _ Hmv p Hp)
      as (e & e' & n & n' & H0 & H1 & Hh & _ & Hnx & _).
    assert (Hview : is_Some (entry_view (heap w) p)).
    { destruct (chains_elem _ _ _ _ (ok_chains _ _ Hok) Hp) as (b & c0 & Hb & Hpc).
      exact (chain_view _ _ _ _ Hb Hpc). }
    unfold entry_view in Hview. rewrite H0 in Hview.
    destruct (_hash e) as [hv|] eqn:Hhv; [|now destruct Hview as [? [=]]].
    assert (Hnull : p <> NULL).
    { intros ->.
      destruct (chains_elem _ _ _ _ (ok_chains _ _ Hok) Hp) as (b & c0 & Hb & Hpc).
      exact (chain_not_NULL _ _ _ Hb Hpc). }
    assert (Hslot' : to_uint hv mod new_size = Z.of_nat j).
    { unfold slot in Hslot. rewrite H0, Hhv in Hslot.
      pose proof (Z.mod_pos_bound (to_uint hv) new_size ltac:(lia)). lia. }
    exists hv. split; [|split].
    + apply (entry_hash_ok w' p e'); [exact Hnull | exact H1 | congruence].
    + rewrite hash_to_index_ok by exact Hn. cbn. now rewrite Hslot'.
    + destruct (bucket_index_range new_size hv Hn) as [-> _]. now rewrite Hslot'.
Qed.

Lemma resize_failure_run w (new_size : Z) (fuel : nat) :
  at_safepoint w = true ->
  hd NULL (c_heap w) = NULL ->
  resize ASSERT fuel new_size w = Ret (false, with_c_heap (tl (c_heap w)) w).
Proof.
  intros Hsp Hnull.
  unfold resize.
  unfold bind at 1, gets at 1. rewrite Hsp.
  rewrite (bind_Ret _ _ _ _ _ (assert_ok true _ w eq_refl)).
  assert (Halloc : NEW_C_HEAP_ARRAY2_RETURN_NULL 8 new_size w
                   = Ret (NULL, with_c_heap (tl (c_heap w)) w)).
  { unfold NEW_C_HEAP_ARRAY2_RETURN_NULL, AllocateHeap, bind, os_malloc.
    destruct (c_heap w) as [|p rest] eqn:E; cbn in *.
    - destruct w; cbn in E; now subst.
    - now subst p. }
  now rewrite (bind_Ret _ _ _ _ _ Halloc).
Qed.

(** C4: when the allocation of the new bucket array fails, [resize]
    answers [false] and the table object, with its size, its count and its
    bucket array, the entries with their links, and the output are what
    they were; only the failed request was taken from the C heap. *)
Theorem resize_allocation_failure w (new_size : Z) (fuel : nat) :
  at_safepoint w = true ->
  hd NULL (c_heap w) = NULL ->
  exists w',
    resize ASSERT fuel new_size w = Ret (false, w') /\
    this w' = this w /\ heap w' = heap w /\ output w' = output w.
Proof.
  intros Hsp Hnull. exists (with_c_heap (tl (c_heap w)) w).
  split; [now apply resize_failure_run | now repeat split].
Qed.

(** ** Growth *)

Lemma maybe_grow_at_max w (fuel : nat) (max_size load_factor : Z) :
  at_safepoint w = true ->
  _table_size (this w) >= max_size ->
  maybe_grow ASSERT fuel max_size load_factor w = Ret (false, w).
Proof.
  intros Hsp Hmax. unfold maybe_grow.
  unfold bind at 1, gets at 1. rewrite Hsp.
  rewrite (bind_Ret _ _ _ _ _ (assert_ok true _ w eq_refl)).
  unfold bind at 1, table_size at 1, gets at 1.
  destruct (Z.geb_spec (_table_size (this w)) max_size); [reflexivity | lia].
Qed.

Lemma maybe_grow_low_load w (fuel : nat) (max_size load_factor : Z) :
  at_safepoint w = true ->
  0 < _table_size (this w) < max_size ->
  _number_of_entries (this w) ÷ _table_size (this w) <= load_factor ->
  maybe_grow ASSERT fuel max_size load_factor w = Ret (false, w).
Proof.
  intros Hsp Hts Hload. unfold maybe_grow.
  unfold bind at 1, gets at 1. rewrite Hsp.
  rewrite (bind_Ret _ _ _ _ _ (assert_ok true _ w eq_refl)).
  unfold bind at 1, table_size at 1, gets at 1.
  destruct (Z.geb_spec (_table_size (this w)) max_size); [lia|].
  unfold bind at 1, number_of_entries at 1, gets at 1.
  unfold bind at 1, lift at 1, int_div.
  destruct (Z.eqb_spec (_table_size (this w)) 0); [lia|].
  destruct (Z.eqb_spec (_table_size (this w)) (-1)); [lia|].
  rewrite andb_false_r. cbn [orb].
  destruct (Z.gtb_spec (_number_of_entries (this w) ÷ _table_size (this w)) load_factor);
    [lia | reflexivity].
Qed.

(** The steps of [maybe_grow] up to the call of [resize]. *)
Lemma maybe_grow_high_load w (fuel : nat) (max_size load_factor : Z) :
  at_safepoint w = true ->
  0 < _table_size (this w) < max_size ->
  _number_of_entries (this w) ÷ _table_size (this w) > load_factor ->
  maybe_grow ASSERT fuel max_size load_factor w
  = bind (resize ASSERT fuel (Z.min (to_int (_table_size (this w) * 2)) max_size))
         (fun _ => ret true) w.
Proof.
  intros Hsp Hts Hload. unfold maybe_grow.
  unfold bind at 1, gets at 1. rewrite Hsp.
  rewrite (bind_Ret _ _ _ _ _ (assert_ok true _ w eq_refl)).
  unfold bind at 1, table_size at 1, gets at 1.
  destruct (Z.geb_spec (_table_size (this w)) max_size); [lia|].
  unfold bind at 1, number_of_entries at 1, gets at 1.
  unfold bind at 1, lift at 1, int_div.
  destruct (Z.eqb_spec (_table_size (this w)) 0); [lia|].
  destruct (Z.eqb_spec (_table_size (this w)) (-1)); [lia|].
  rewrite andb_false_r. cbn [orb].
  destruct (Z.gtb_spec (_number_of_entries (this w) ÷ _table_size (this w)) load_factor);
    [reflexivity | lia].
Qed.

(** With a bucket array at hand, a table under load doubles, up to
    [max_size]. *)
Lemma maybe_grow_grows w (chains : list (list Z)) (fuel : nat)
    (max_size load_factor buckets_new : Z) (rest : list Z) :
  table_ok w chains ->
  at_safepoint w = true ->
  0 < _table_size (this w) < max_size ->
  _table_size (this w) * 2 <= INT_MAX ->
  max_size <= INT_MAX ->
  _number_of_entries (this w) ÷ _table_size (this w) > load_factor ->
  c_heap w = buckets_new :: rest ->
  buckets_new <> NULL ->
  (length (concat chains) < fuel)%nat ->
  exists w',
    maybe_grow ASSERT fuel max_size load_factor w = Ret (true, w') /\
    _table_size (this w') = Z.min (_table_size (this w) * 2) max_size.
Proof.
  intros Hok Hsp Hts H2 Hmax Hload Hmalloc Hnn Hfuel.
  rewrite maybe_grow_high_load by assumption.
  rewrite to_int_small by (unfold INT_MAX in *; lia).
  destruct (resize_spec w chains (Z.min (_table_size (this w) * 2) max_size) fuel
              buckets_new rest Hok Hsp ltac:(lia) Hmalloc Hnn Hfuel)
    as (h' & bn' & Hrun & _).
  rewrite (bind_Ret _ _ _ _ _ Hrun). eexists. split; reflexivity.
Qed.

(** Without one, [maybe_grow] still answers [true], over a table of the
    old size. *)
Lemma maybe_grow_allocation_failure w (fuel : nat) (max_size load_factor : Z) :
  at_safepoint w = true ->
  0 < _table_size (this w) < max_size ->
  _number_of_entries (this w) ÷ _table_size (this w) > load_factor ->
  hd NULL (c_heap w) = NULL ->
  maybe_grow ASSERT fuel max_size load_factor w
  = Ret (true, with_c_heap (tl (c_heap w)) w).
Proof.
  intros Hsp Hts Hload Hoom.
  rewrite maybe_grow_high_load by assumption.
  rewrite (bind_Ret _ _ _ _ _
             (resize_failure_run w
                (Z.min (to_int (_table_size (this w) * 2)) max_size) fuel Hsp Hoom)).
  reflexivity.
Qed.

(** C3, as the code has it: [maybe_grow] on a well-formed table with at
    least one bucket, whose size can be doubled within [int], comes back,
    whatever the C heap answers; it answers [true] exactly for a table
    below [max_size] whose load, by truncating division, is above the load
    factor; and when it answers [true] and the C heap had a bucket array to
    give, the table has [min(table_size * 2, max_size)] buckets afterwards. *)
Theorem maybe_grow_decision w (chains : list (list Z)) (fuel : nat)
    (max_size load_factor : Z) :
  table_ok w chains ->
  at_safepoint w = true ->
  0 < _table_size (this w) ->
  _table_size (this w) * 2 <= INT_MAX ->
  max_size <= INT_MAX ->
  (length (concat chains) < fuel)%nat ->
  exists (grown : bool) w',
    maybe_grow ASSERT fuel max_size load_factor w = Ret (grown, w') /\
    (grown = true <->
     _table_size (this w) < max_size /\
     _number_of_entries (this w) ÷ _table_size (this w) > load_factor) /\
    (grown = true -> hd NULL (c_heap w) <> NULL ->
     _table_size (this w') = Z.min (_table_size (this w) * 2) max_size).
Proof.
  intros Hok Hsp Hts H2 Hmax Hfuel.
  destruct (Z_lt_le_dec (_table_size (this w)) max_size) as [Hlt|Hge].
  - destruct (Z_gt_le_dec (_number_of_entries (this w) ÷ _table_size (this w))
                          load_factor) as [Hhi|Hlo].
    + destruct (c_heap w) as [|p rest] eqn:Hc.
      * exists true, (with_c_heap (tl (c_heap w)) w). split; [|split; [tauto|]].
        -- apply maybe_grow_allocation_failure; [assumption | lia | assumption |].
           now rewrite Hc.
        -- intros _ Hnn. now contradiction Hnn.
      * destruct (Z.eq_dec p NULL) as [->|Hp].
        -- exists true, (with_c_heap (tl (c_heap w)) w). split; [|split; [tauto|]].
           ++ apply maybe_grow_allocation_failure; [assumption | lia | assumption |].
              now rewrite Hc.
           ++ intros _ Hnn. now contradiction Hnn.
        -- destruct (maybe_grow_grows w chains fuel max_size load_factor p rest)
             as (w' & Hrun & Hsize); try assumption; [lia|].
           exists true, w'. split; [exact Hrun|]. split; [tauto|].
           intros _ _. exact Hsize.
    + exists false, w. split; [|split].
      * apply maybe_grow_low_load; [assumption | lia | assumption].
      * split; [discriminate | lia].
      * discriminate.
  - exists false, w. split; [|split].
    + apply maybe_grow_at_max; [assumption | lia].
    + split; [discriminate | lia].
    + discriminate.
Qed.

(** ** What a computation that returns has done *)

Lemma post_bind {A B : Type} (c : @M T A) (k : A -> @M T B) w Q :
  post c w (fun a w1 => post (k a) w1 Q) -> post (bind c k) w Q.
Proof.
  intros H b w' Hrun. unfold bind in Hrun.
  destruct (c w) as [[a w1]|] eqn:E; [|discriminate].
  exact (H a w1 E b w' Hrun).
Qed.

Lemma post_weaken {A : Type} (c : @M T A) w (Q Q' : A -> @World T -> Prop) :
  post c w Q -> (forall a w', Q a w' -> Q' a w') -> post c w Q'.
Proof. intros H HQ a w' Hrun. apply HQ, H, Hrun. Qed.

Lemma post_ret {A : Type} (a : A) w (Q : A -> @World T -> Prop) :
  Q a w -> post (ret a) w Q.
Proof. intros H a' w' [= <- <-]. exact H. Qed.

Lemma post_fail {A : Type} err w (Q : A -> @World T -> Prop) :
  post (fail err) w Q.
Proof. intros a w' [=]. Qed.

Lemma post_gets {A : Type} (f : @World T -> A) w (Q : A -> @World T -> Prop) :
  Q (f w) w -> post (gets f) w Q.
Proof. intros H a' w' [= <- <-]. exact H. Qed.

Lemma post_modify (f : @World T -> @World T) w (Q : unit -> @World T -> Prop) :
  Q tt (f w) -> post (modify f) w Q.
Proof. intros H a' w' [= <- <-]. exact H. Qed.

Lemma post_assert (cond : bool) (msg : string) w (Q : unit -> @World T -> Prop) :
  Q tt w -> post (assert ASSERT cond msg) w Q.
Proof.
  intros H. unfold assert.
  destruct (ASSERT && negb cond); [apply post_fail | now apply post_ret].
Qed.

Lemma post_lift {A : Type} (r : result A) w (Q : A -> @World T -> Prop) :
  (forall a, r = Ret a -> Q a w) -> post (lift r) w Q.
Proof.
  intros H a w' Hrun. unfold lift in Hrun.
  destruct r as [a0|]; [|discriminate].
  injection Hrun as <- <-. now apply H.
Qed.

Lemma post_store p (f : Entry -> Entry) w (Q : unit -> @World T -> Prop) :
  (p <> NULL ->
   Q tt (with_heap (<[p := f (default raw_entry (heap w !! p))]> (heap w)) w)) ->
  post (store p f) w Q.
Proof.
  intros H a w' Hrun. unfold store in Hrun.
  destruct (Z.eqb_spec p NULL) as [|Hp]; [discriminate|].
  injection Hrun as <- <-. now apply H.
Qed.

Lemma post_load p w (Q : Entry -> @World T -> Prop) :
  (forall e, p <> NULL -> heap w !! p = Some e -> Q e w) -> post (load p) w Q.
Proof.
  intros H a w' Hrun. unfold load in Hrun.
  destruct (Z.eqb_spec p NULL) as [|Hp]; [discriminate|].
  destruct (heap w !! p) as [e|] eqn:E; [|discriminate].
  injection Hrun as <- <-. now apply H.
Qed.

Lemma post_os_malloc w (Q : Z -> @World T -> Prop) :
  Q (hd NULL (c_heap w)) (with_c_heap (tl (c_heap w)) w) -> post os_malloc w Q.
Proof.
  intros H a w' Hrun. unfold os_malloc in Hrun.
  destruct (c_heap w) as [|p rest] eqn:E; injection Hrun as <- <-.
  - cbn in H. destruct w; cbn in *; now subst.
  - exact H.
Qed.

(** ** The entry allocator *)

Section Allocation.

Variable alloc_failmode : AllocFailType.

Lemma shl_one_log2 (len : Z) :
  0 < len <= INT_MAX ->
  shl_one (log2_int len) = Ret (2 ^ Z.log2 len) /\
  2 ^ Z.log2 len <= len < 2 * 2 ^ Z.log2 len.
Proof.
  unfold INT_MAX. intros Hlen.
  pose proof (Z.log2_nonneg len) as H0.
  assert (H31 : Z.log2 len < 31) by (apply Z.log2_lt_pow2; lia).
  destruct (Z.log2_spec len ltac:(lia)) as [Hlo Hhi].
  rewrite Z.pow_succ_r in Hhi by exact H0.
  split; [|lia].
  unfold log2_int, shl_one.
  destruct (Z.eqb_spec len 0); [lia|].
  destruct (Z.ltb_spec len 0); [lia|].
  destruct (Z.leb_spec 0 (Z.log2 len)); [|lia].
  destruct (Z.ltb_spec (Z.log2 len) 31); [|lia].
  cbn [andb]. now rewrite Z.shiftl_1_l.
Qed.

(** The run of [new_entry] that has to lay out a new block. *)
Lemma new_entry_new_block w (hashValue p : Z) (rest : list Z) :
  _free_list (this w) = NULL ->
  _first_free_entry (this w) + _entry_size (this w) >= _end_block (this w) ->
  0 < _entry_size (this w) * new_block_size (this w) <= INT_MAX ->
  _entry_size (this w)
    <= 2 ^ Z.log2 (_entry_size (this w) * new_block_size (this w)) ->
  Z.rem (_entry_size (this w)) HeapWordSize = 0 ->
  c_heap w = p :: rest ->
  p <> NULL ->
  let len := 2 ^ Z.log2 (_entry_size (this w) * new_block_size (this w)) in
  new_entry ASSERT alloc_failmode hashValue w
  = Ret (p, mkWorld
              (with_first_free_entry (p + _entry_size (this w))
                 (with_end_block (p + len)
                    (with_entry_blocks (_entry_blocks (this w) ++ [p]) (this w))))
              (<[p := mkEntry (Some hashValue)
                              (_next (default raw_entry (heap w !! p)))
                              (_literal (default raw_entry (heap w !! p)))]> (heap w))
              rest (at_safepoint w) (log_debug_enabled w) (output w)).
Proof.
  intros Hfl Hfull Hlen Hfit Hword Hmalloc Hp len.
  destruct (shl_one_log2 _ Hlen) as [Hshl _].
  unfold new_entry, new_entry_free_list.
  unfold bind at 1. unfold bind at 1. unfold gets at 1. rewrite Hfl. cbn [Z.eqb NULL negb].
  unfold ret at 1. cbn [Z.eqb NULL].
  unfold bind at 1. unfold bind at 1. unfold gets at 1.
  destruct (Z.geb_spec (_first_free_entry (this w) + _entry_size (this w))
                       (_end_block (this w))) as [_|]; [|lia].
  rewrite (to_int_small (_ * _)) by (unfold INT_MAX in *; lia).
  unfold bind at 1. unfold bind at 1. unfold lift at 1. rewrite Hshl.
  rewrite (bind_Ret _ _ _ _ _ (assert_ok _ _ w ltac:(apply Z.geb_le; exact Hfit))).
  unfold NEW_C_HEAP_ARRAY2, AllocateHeap, os_malloc.
  unfold bind at 1. unfold bind at 1. rewrite Hmalloc, (NULL_eqb _ Hp).
  cbn [andb]. unfold ret at 1.
  unfold bind at 1, modify_this at 1, modify at 1.
  unfold bind at 1, modify_this at 1, modify at 1.
  unfold modify_this at 1, modify at 1.
  unfold bind at 1, gets at 1.
  unfold bind at 1, modify_this at 1, modify at 1.
  unfold ret at 1.
  unfold bind at 1, entry_size at 1, gets at 1.
  cbn [this with_this with_c_heap _entry_size with_first_free_entry with_end_block
       with_entry_blocks _first_free_entry].
  rewrite (bind_Ret _ _ _ _ _ (assert_ok _ _ _ ltac:(apply Z.eqb_eq; exact Hword))).
  unfold entry_set_hash, store, bind. rewrite (NULL_eqb _ Hp).
  reflexivity.
Qed.

Ltac post_step :=
  lazymatch goal with
  | |- post (bind _ _) _ _ => apply post_bind
  | |- post (ret _) _ _ => apply post_ret
  | |- post (fail _) _ _ => apply post_fail
  | |- post (gets _) _ _ => apply post_gets
  | |- post (modify _) _ _ => apply post_modify
  | |- post (assert _ _ _) _ _ => apply post_assert
  | |- post (lift _) _ _ => apply post_lift; intros ? ?
  | |- post (store _ _) _ _ => apply post_store; intros ?
  | |- post (load _) _ _ => apply post_load; intros ? ? ?
  | |- post os_malloc _ _ => apply post_os_malloc
  | |- post (if ?b then _ else _) _ _ => destruct b eqn:?
  | |- post (match ?o with Some _ => _ | None => _ end) _ _ => destruct o eqn:?
  end.

(** What [new_entry] leaves fixed, and the one field it writes. *)
Lemma new_entry_post (hashValue : Z) w :
  post (new_entry ASSERT alloc_failmode hashValue) w
    (fun p w' =>
       p <> NULL /\
       heap w' = <[p := mkEntry (Some hashValue)
                               (_next (default raw_entry (heap w !! p)))
                               (_literal (default raw_entry (heap w !! p)))]> (heap w) /\
       _table_size (this w') = _table_size (this w) /\
       _number_of_entries (this w') = _number_of_entries (this w) /\
       _buckets (this w') = _buckets (this w) /\
       _entry_size (this w') = _entry_size (this w) /\
       at_safepoint w' = at_safepoint w).
Proof.
  unfold new_entry, new_entry_free_list, entry_next, entry_size, entry_set_hash,
    NEW_C_HEAP_ARRAY2, AllocateHeap, modify_this, field.
  repeat post_step; cbn; auto 10.
Qed.

(** The free list comes first: its head is handed out, no block is laid
    out and nothing is asked from the C heap. *)
Lemma new_entry_reuses_free_list w (hashValue fl n : Z) e :
  _free_list (this w) = fl -> fl <> NULL ->
  heap w !! fl = Some e -> _next e = Some n ->
  Z.rem (_entry_size (this w)) HeapWordSize = 0 ->
  new_entry ASSERT alloc_failmode hashValue w
  = Ret (fl, mkWorld (with_free_list (make_ptr n) (this w))
               (<[fl := mkEntry (Some hashValue) (_next e) (_literal e)]> (heap w))
               (c_heap w) (at_safepoint w) (log_debug_enabled w) (output w)).
Proof.
  intros Hfl Hnn He Hn Hword.
  unfold new_entry, new_entry_free_list.
  unfold bind at 1. unfold bind at 1. unfold gets at 1. rewrite Hfl, (NULL_eqb _ Hnn).
  cbn [negb]. rewrite (bind_Ret _ _ _ _ _ (entry_next_ok _ _ _ _ Hnn He Hn)).
  unfold bind at 1, modify_this at 1, modify at 1. unfold ret at 1.
  rewrite (NULL_eqb _ Hnn).
  unfold bind at 1, ret at 1.
  unfold bind at 1, entry_size at 1, gets at 1. cbn [this with_this _entry_size with_free_list].
  rewrite (bind_Ret _ _ _ _ _ (assert_ok _ _ _ ltac:(apply Z.eqb_eq; exact Hword))).
  unfold entry_set_hash, store, bind. rewrite (NULL_eqb _ Hnn).
  cbn [heap with_this]. rewrite He. reflexivity.
Qed.

(** An assertion passes where it holds or is not checked. *)
Lemma assert_pass (cond : bool) (msg : string) w :
  (ASSERT = true -> cond = true) -> assert ASSERT cond msg w = Ret (tt, w).
Proof.
  intros H. unfold assert. destruct ASSERT; cbn [andb]; [|reflexivity].
  now rewrite (H eq_refl).
Qed.

(** The run of [new_entry] that lays out a new block, when the two
    assertions are known to hold in the builds that check them. *)
Lemma new_entry_new_block_checked w (hashValue p : Z) (rest : list Z) :
  _free_list (this w) = NULL ->
  _first_free_entry (this w) + _entry_size (this w) >= _end_block (this w) ->
  0 < _entry_size (this w) * new_block_size (this w) <= INT_MAX ->
  (ASSERT = true ->
   _entry_size (this w)
     <= 2 ^ Z.log2 (_entry_size (this w) * new_block_size (this w))) ->
  (ASSERT = true -> Z.rem (_entry_size (this w)) HeapWordSize = 0) ->
  c_heap w = p :: rest ->
  p <> NULL ->
  let len := 2 ^ Z.log2 (_entry_size (this w) * new_block_size (this w)) in
  new_entry ASSERT alloc_failmode hashValue w
  = Ret (p, mkWorld
              (with_first_free_entry (p + _entry_size (this w))
                 (with_end_block (p + len)
                    (with_entry_blocks (_entry_blocks (this w) ++ [p]) (this w))))
              (<[p := mkEntry (Some hashValue)
                              (_next (default raw_entry (heap w !! p)))
                              (_literal (default raw_entry (heap w !! p)))]> (heap w))
              rest (at_safepoint w) (log_debug_enabled w) (output w)).
Proof.
  intros Hfl Hfull Hlen Hfit Hword Hmalloc Hp len.
  destruct (shl_one_log2 _ Hlen) as [Hshl _].
  unfold new_entry, new_entry_free_list.
  unfold bind at 1. unfold bind at 1. unfold gets at 1. rewrite Hfl. cbn [Z.eqb NULL negb].
  unfold ret at 1. cbn [Z.eqb NULL].
  unfold bind at 1. unfold bind at 1. unfold gets at 1.
  destruct (Z.geb_spec (_first_free_entry (this w) + _entry_size (this w))
                       (_end_block (this w))) as [_|]; [|lia].
  rewrite (to_int_small (_ * _)) by (unfold INT_MAX in *; lia).
  unfold bind at 1. unfold bind at 1. unfold lift at 1. rewrite Hshl.
  rewrite (bind_Ret _ _ _ _ _
             (assert_pass _ _ w (fun HA => proj2 (Z.geb_le _ _) (Hfit HA)))).
  unfold NEW_C_HEAP_ARRAY2, AllocateHeap, os_malloc.
  unfold bind at 1. unfold bind at 1. rewrite Hmalloc, (NULL_eqb _ Hp).
  cbn [andb]. unfold ret at 1.
  unfold bind at 1, modify_this at 1, modify at 1.
  unfold bind at 1, modify_this at 1, modify at 1.
  unfold modify_this at 1, modify at 1.
  unfold bind at 1, gets at 1.
  unfold bind at 1, modify_this at 1, modify at 1.
  unfold ret at 1.
  unfold bind at 1, entry_size at 1, gets at 1.
  cbn [this with_this with_c_heap _entry_size with_first_free_entry with_end_block
       with_entry_blocks _first_free_entry].
  rewrite (bind_Ret _ _ _ _ _
             (assert_pass _ _ _ (fun HA => proj2 (Z.eqb_eq _ _) (Hword HA)))).
  unfold entry_set_hash, store, bind. rewrite (NULL_eqb _ Hp).
  reflexivity.
Qed.

(** The run of [new_entry] that finds room in the current block. *)
Lemma new_entry_in_block w (hashValue : Z) :
  _free_list (this w) = NULL ->
  _first_free_entry (this w) <> NULL ->
  _first_free_entry (this w) + _entry_size (this w) < _end_block (this w) ->
  (ASSERT = true -> Z.rem (_entry_size (this w)) HeapWordSize = 0) ->
  new_entry ASSERT alloc_failmode hashValue w
  = Ret (_first_free_entry (this w),
         mkWorld
           (with_first_free_entry
              (_first_free_entry (this w) + _entry_size (this w)) (this w))
           (<[_first_free_entry (this w) :=
                mkEntry (Some hashValue)
                  (_next (default raw_entry (heap w !! _first_free_entry (this w))))
                  (_literal (default raw_entry
                               (heap w !! _first_free_entry (this w))))]> (heap w))
           (c_heap w) (at_safepoint w) (log_debug_enabled w) (output w)).
Proof.
  intros Hfl Hp Hroom Hword.
  unfold new_entry, new_entry_free_list.
  unfold bind at 1. unfold bind at 1. unfold gets at 1. rewrite Hfl.
  cbn [Z.eqb NULL negb]. unfold ret at 1. cbn [Z.eqb NULL].
  unfold bind at 1. unfold bind at 1. unfold gets at 1.
  destruct (Z.geb_spec (_first_free_entry (this w) + _entry_size (this w))
                       (_end_block (this w))) as [|_]; [lia|].
  unfold bind at 1, ret at 1.
  unfold bind at 1, gets at 1.
  unfold bind at 1, modify_this at 1, modify at 1. unfold ret at 1.
  unfold bind at 1, entry_size at 1, gets at 1.
  cbn [this with_this _entry_size with_first_free_entry].
  rewrite (bind_Ret _ _ _ _ _
             (assert_pass _ _ _ (fun HA => proj2 (Z.eqb_eq _ _) (Hword HA)))).
  unfold entry_set_hash, store, bind. rewrite (NULL_eqb _ Hp).
  reflexivity.
Qed.

(** The run of [new_entry] that takes the head of the free list. *)
Lemma new_entry_free_list_checked w (hashValue fl n : Z) e :
  _free_list (this w) = fl -> fl <> NULL ->
  heap w !! fl = Some e -> _next e = Some n ->
  (ASSERT = true -> Z.rem (_entry_size (this w)) HeapWordSize = 0) ->
  new_entry ASSERT alloc_failmode hashValue w
  = Ret (fl, mkWorld (with_free_list (make_ptr n) (this w))
               (<[fl := mkEntry (Some hashValue) (_next e) (_literal e)]> (heap w))
               (c_heap w) (at_safepoint w) (log_debug_enabled w) (output w)).
Proof.
  intros Hfl Hnn He Hn Hword.
  unfold new_entry, new_entry_free_list.
  unfold bind at 1. unfold bind at 1. unfold gets at 1. rewrite Hfl, (NULL_eqb _ Hnn).
  cbn [negb]. rewrite (bind_Ret _ _ _ _ _ (entry_next_ok _ _ _ _ Hnn He Hn)).
  unfold bind at 1, modify_this at 1, modify at 1. unfold ret at 1.
  rewrite (NULL_eqb _ Hnn).
  unfold bind at 1, ret at 1.
  unfold bind at 1, entry_size at 1, gets at 1. cbn [this with_this _entry_size with_free_list].
  rewrite (bind_Ret _ _ _ _ _
             (assert_pass _ _ _ (fun HA => proj2 (Z.eqb_eq _ _) (Hword HA)))).
  unfold entry_set_hash, store, bind. rewrite (NULL_eqb _ Hnn).
  cbn [heap with_this]. rewrite He. reflexivity.
Qed.

(** C5, with the condition the code needs: when [new_entry] has to lay out
    a block, and the raw length [entry_size] times
    [min(512, max(table_size / 2, number_of_entries))] is a positive [int],
    the block is meant for that many entries and its length in bytes is the
    raw length rounded down to a power of two; with 16 byte entries, 10
    buckets and no entry that is 5 entries, 80 bytes, rounded down to 64.
    The two assertions of [new_entry] are asked for in a debug build only,
    where they are checked. *)
Theorem new_entry_block_length w (hashValue p : Z) (rest : list Z) :
  _free_list (this w) = NULL ->
  _first_free_entry (this w) + _entry_size (this w) >= _end_block (this w) ->
  0 < _entry_size (this w) * new_block_size (this w) <= INT_MAX ->
  (ASSERT = true ->
   _entry_size (this w)
     <= 2 ^ Z.log2 (_entry_size (this w) * new_block_size (this w))) ->
  (ASSERT = true -> Z.rem (_entry_size (this w)) HeapWordSize = 0) ->
  c_heap w = p :: rest ->
  p <> NULL ->
  exists w',
    new_entry ASSERT alloc_failmode hashValue w = Ret (p, w') /\
    _entry_blocks (this w') = _entry_blocks (this w) ++ [p] /\
    new_block_size (this w)
    = Z.min 512 (Z.max (_table_size (this w) ÷ 2) (_number_of_entries (this w))) /\
    (exists k : Z,
        0 <= k /\ _end_block (this w') - p = 2 ^ k /\
        2 ^ k <= _entry_size (this w) * new_block_size (this w) < 2 ^ (k + 1)) /\
    (_entry_size (this w) = 16 -> _table_size (this w) = 10 ->
     _number_of_entries (this w) = 0 ->
     new_block_size (this w) = 5 /\
     _entry_size (this w) * new_block_size (this w) = 80 /\
     _end_block (this w') - p = 64).
Proof.
  intros Hfl Hfull Hlen Hfit Hword Hmalloc Hp.
  eexists. split; [exact (new_entry_new_block_checked w hashValue p rest
                            Hfl Hfull Hlen Hfit Hword Hmalloc Hp)|].
  cbn [this _entry_blocks _end_block with_first_free_entry with_end_block
       with_entry_blocks].
  split; [reflexivity|]. split; [reflexivity|]. split.
  - exists (Z.log2 (_entry_size (this w) * new_block_size (this w))).
    pose proof (Z.log2_nonneg (_entry_size (this w) * new_block_size (this w))).
    destruct (shl_one_log2 _ Hlen) as [_ Hb].
    rewrite Z.pow_add_r by lia. change (2 ^ 1) with 2.
    repeat split; try lia.
  - intros E16 E10 E0.
    assert (Hbs : new_block_size (this w) = 5).
    { unfold new_block_size. rewrite E10, E0. reflexivity. }
    rewrite Hbs, E16. repeat split.
    replace (p + 2 ^ Z.log2 (16 * 5) - p) with (2 ^ Z.log2 (16 * 5)) by lia.
    reflexivity.
Qed.



(** C10: [allocate_new_entry] asks the C heap for one entry, sets its hash,
    its literal and a null link, and leaves the table object alone: block
    list, block cursor and free list are what they were.  [new_entry] writes
    the hash only: link and literal of the entry it returns are what the
    storage held before the call; and it does return an entry, with the
    hash in place and no other entry written, on each of its three ways:
    from the free list, from the room left in the block, and from a new
    block. *)
Theorem allocate_new_entry_initialises w (hashValue : Z) (obj : T) (p : Z)
    (rest : list Z) :
  c_heap w = p :: rest ->
  p <> NULL ->
  (exists w',
      allocate_new_entry alloc_failmode hashValue obj w = Ret (p, w') /\
      heap w' = <[p := mkEntry (Some hashValue) (Some NULL) (Some obj)]> (heap w) /\
      entry_hash p w' = Ret (hashValue, w') /\
      entry_literal p w' = Ret (obj, w') /\
      entry_next p w' = Ret (NULL, w') /\
      this w' = this w) /\
  (forall w0 hv0 entry w0',
      new_entry ASSERT alloc_failmode hv0 w0 = Ret (entry, w0') ->
      heap w0' !! entry
      = Some (mkEntry (Some hv0)
                      (_next (default raw_entry (heap w0 !! entry)))
                      (_literal (default raw_entry (heap w0 !! entry))))) /\
  (forall w0 hv0,
      (ASSERT = true -> Z.rem (_entry_size (this w0)) HeapWordSize = 0) ->
      (_free_list (this w0) <> NULL /\
       exists e n, heap w0 !! _free_list (this w0) = Some e /\ _next e = Some n) \/
      (_free_list (this w0) = NULL /\
       _first_free_entry (this w0) <> NULL /\
       _first_free_entry (this w0) + _entry_size (this w0) < _end_block (this w0)) \/
      (_free_list (this w0) = NULL /\
       _first_free_entry (this w0) + _entry_size (this w0) >= _end_block (this w0) /\
       0 < _entry_size (this w0) * new_block_size (this w0) <= INT_MAX /\
       (ASSERT = true ->
        _entry_size (this w0)
          <= 2 ^ Z.log2 (_entry_size (this w0) * new_block_size (this w0))) /\
       hd NULL (c_heap w0) <> NULL) ->
      exists entry w0',
        new_entry ASSERT alloc_failmode hv0 w0 = Ret (entry, w0') /\
        entry <> NULL /\
        entry_hash entry w0' = Ret (hv0, w0') /\
        (forall a, a <> entry -> heap w0' !! a = heap w0 !! a)).
Proof.
  intros Hmalloc Hp. split; [|split].
  - set (e := mkEntry (Some hashValue) (Some NULL) (Some obj)).
    set (w' := mkWorld (this w) (<[p := e]> (heap w)) rest (at_safepoint w)
                       (log_debug_enabled w) (output w)).
    exists w'.
    assert (Hlook : heap w' !! p = Some e) by apply lookup_insert_eq.
    split; [|split; [reflexivity|split; [|split; [|split]]]].
    + unfold allocate_new_entry, entry_size, NEW_C_HEAP_ARRAY, AllocateHeap, os_malloc.
      unfold bind at 1, gets at 1. unfold bind at 1. unfold bind at 1.
      rewrite Hmalloc, (NULL_eqb _ Hp). cbn [andb]. unfold ret at 1.
      unfold entry_set_hash, entry_set_literal, entry_set_next, store, bind, ret.
      rewrite (NULL_eqb _ Hp). cbn [heap with_c_heap with_heap this c_heap
        at_safepoint log_debug_enabled output].
      rewrite !lookup_insert_eq. cbn [default _hash _next _literal].
      rewrite !insert_insert_eq. reflexivity.
    + now apply (entry_hash_ok _ p e).
    + unfold entry_literal. now rewrite (bind_Ret _ _ _ _ _ (load_ok _ _ _ Hp Hlook)).
    + now apply (entry_next_ok _ p e NULL).
    + reflexivity.
  - intros w0 hv0 entry w0' Hrun.
    destruct (new_entry_post hv0 w0 entry w0' Hrun) as (_ & -> & _).
    apply lookup_insert_eq.
  - intros w0 hv0 Hword Hway.
    assert (Hrun : exists entry w0',
               new_entry ASSERT alloc_failmode hv0 w0 = Ret (entry, w0')).
    { destruct Hway as [(Hfl & e & n & He & Hn)
                       |[(Hfl & Hff & Hroom)|(Hfl & Hfull & Hlen & Hfit & Hheap)]].
      - do 2 eexists.
        exact (new_entry_free_list_checked w0 hv0 _ n e eq_refl Hfl He Hn Hword).
      - do 2 eexists. exact (new_entry_in_block w0 hv0 Hfl Hff Hroom Hword).
      - destruct (c_heap w0) as [|q rest0] eqn:Hc; [now cbn in Hheap|].
        cbn in Hheap. do 2 eexists.
        exact (new_entry_new_block_checked w0 hv0 q rest0 Hfl Hfull Hlen Hfit
                 Hword Hc Hheap). }
    destruct Hrun as (entry & w0' & Hrun).
    exists entry, w0'. split; [exact Hrun|].
    destruct (new_entry_post hv0 w0 entry w0' Hrun) as (Hnn & Hheap' & _).
    split; [exact Hnn|]. split.
    + apply (entry_hash_ok w0' entry
               (mkEntry (Some hv0)
                  (_next (default raw_entry (heap w0 !! entry)))
                  (_literal (default raw_entry (heap w0 !! entry)))) hv0 Hnn);
        [|reflexivity].
      rewrite Hheap'. apply lookup_insert_eq.
    + intros a Ha. rewrite Hheap'. apply lookup_insert_ne. congruence.
Qed.

(** ** Insertion *)

Lemma insert_post (hashValue : Z) (obj : T) w :
  post (insert ASSERT alloc_failmode hashValue obj) w
    (fun _ w' =>
       _table_size (this w') = _table_size (this w) /\
       _number_of_entries (this w') = to_int (_number_of_entries (this w) + 1) /\
       at_safepoint w' = at_safepoint w).
Proof.
  unfold insert, Hashtable_new_entry.
  apply post_bind, post_bind.
  eapply post_weaken; [apply new_entry_post|].
  intros entry w1 (_ & _ & Hts & Hn & _ & _ & Hsp).
  unfold entry_set_literal, hash_to_index, table_size, add_entry, bucket, index,
    entry_set_next, modify_this.
  repeat post_step; cbn; rewrite ?Hn; auto.
Qed.

Lemma insert_all_post (l : list (Z * T)) :
  forall w,
    post (insert_all ASSERT alloc_failmode l) w
      (fun _ w' =>
         _table_size (this w') = _table_size (this w) /\
         at_safepoint w' = at_safepoint w /\
         (0 <= _number_of_entries (this w) ->
          _number_of_entries (this w) + Z.of_nat (length l) <= INT_MAX ->
          _number_of_entries (this w')
          = _number_of_entries (this w) + Z.of_nat (length l))).
Proof.
  induction l as [|[hashValue obj] l IH]; intros w; cbn [insert_all].
  - apply post_ret. cbn. repeat split. lia.
  - apply post_bind.
    eapply post_weaken; [apply insert_post|].
    intros _ w1 (Hts & Hn & Hsp).
    eapply post_weaken; [apply IH|].
    intros _ w' (Hts' & Hsp' & Hn').
    split; [congruence|]. split; [congruence|].
    intros H0 Hmax. cbn [length] in Hmax.
    rewrite to_int_small in Hn by (unfold INT_MAX in *; lia).
    rewrite Hn', Hn; cbn [length]; lia.
Qed.

(** C8, as the code has it: 33 insertions into an empty table of 16
    buckets give a load of [33 / 16 = 2]; with a load factor of 2 the load
    is not above it, [maybe_grow] answers [false] and the table keeps its 16
    buckets. *)
Theorem maybe_grow_after_33_inserts w0 (l : list (Z * T)) w (fuel : nat)
    (max_size : Z) :
  _table_size (this w0) = 16 ->
  _number_of_entries (this w0) = 0 ->
  at_safepoint w0 = true ->
  length l = 33%nat ->
  insert_all ASSERT alloc_failmode l w0 = Ret (tt, w) ->
  _number_of_entries (this w) = 33 /\
  _table_size (this w) = 16 /\
  int_div (_number_of_entries (this w)) (_table_size (this w)) = Ret 2 /\
  maybe_grow ASSERT fuel max_size 2 w = Ret (false, w).
Proof.
  intros Hts Hn Hsp Hlen Hrun.
  destruct (insert_all_post l w0 tt w Hrun) as (Hts' & Hsp' & Hn').
  rewrite Hn, Hlen in Hn'. specialize (Hn' ltac:(lia) ltac:(unfold INT_MAX; lia)).
  rewrite Hts in Hts'. rewrite Hsp in Hsp'.
  split; [exact Hn'|]. split; [exact Hts'|]. split.
  - rewrite Hn', Hts'. reflexivity.
  - destruct (Z_lt_le_dec 16 max_size).
    + apply maybe_grow_low_load; [exact Hsp' | rewrite Hts'; lia |].
      rewrite Hn', Hts'. apply Z.leb_le. reflexivity.
    + apply maybe_grow_at_max; [exact Hsp' | rewrite Hts'; lia].
Qed.

End Allocation.

(** ** Verification *)

Section Verification.

(** The hook of the concrete table. *)
Variable entry_verify : gmap Z (@Entry T) -> Z -> bool.

Lemma probe_verify_ok w p :
  entry_verify (heap w) p = true ->
  probe_verify entry_verify p w
  = Ret (tt, with_output (output w ++ [VerifyEntry p]) w).
Proof.
  intros Hv. unfold probe_verify, emit, modify, gets, bind. cbn. now rewrite Hv.
Qed.

Lemma verify_chain_spec l :
  forall (fuel : nat) p w (c : Z),
    chain (heap w) p l ->
    (length l < fuel)%nat ->
    (forall a, a ∈ l -> entry_verify (heap w) a = true) ->
    0 <= c -> c + Z.of_nat (length l) <= INT_MAX ->
    verify_chain entry_verify fuel p c w
    = Ret (c + Z.of_nat (length l),
           with_output (output w ++ (VerifyEntry <$> l)) w).
Proof.
  induction l as [|a l IH]; intros fuel p w c Hc Hfuel Hv H0 Hmax.
  - inversion Hc; subst.
    destruct fuel as [|fuel]; [simpl in Hfuel; lia|].
    cbn. rewrite app_nil_r, Z.add_0_r. now destruct w.
  - inversion Hc as [|p' e n hv l' Hp Hal He Hnx Hh Hc']; subst.
    destruct fuel as [|fuel]; [simpl in Hfuel; lia|].
    cbn [verify_chain length] in *. rewrite (NULL_eqb _ Hp).
    rewrite (bind_Ret _ _ _ _ _ (probe_verify_ok w a (Hv a (list_elem_of_here _ _)))).
    set (w1 := with_output _ w).
    rewrite (bind_Ret _ _ _ _ _ (entry_next_ok w1 a e n Hp He Hnx)).
    rewrite to_int_small by (unfold INT_MAX in *; lia).
    rewrite (IH fuel (make_ptr n) w1 (c + 1)); [| exact Hc' | lia | | lia | lia].
    + replace (c + 1 + Z.of_nat (length l)) with (c + Z.of_nat (S (length l))) by lia.
      unfold w1, with_output. cbn [output this heap c_heap at_safepoint
        log_debug_enabled fmap list_fmap].
      now rewrite <- app_assoc.
    + intros b Hb. apply Hv. now apply list_elem_of_further.
Qed.

Lemma count_loop_spec h (fuel : nat) (bs : list Z) (chains : list (list Z)) :
  Forall2 (chain h) bs chains ->
  forall (i : nat) w (ec mbc mbn : Z),
    heap w = h ->
    drop i (_buckets (this w)) = bs ->
    (length (concat chains) < fuel)%nat ->
    (forall a, a ∈ concat chains -> entry_verify h a = true) ->
    0 <= ec -> ec + Z.of_nat (length (concat chains)) <= INT_MAX ->
    exists mbc' mbn',
      for_loop (length bs) (Z.of_nat i)
        (fun index '(element_count, max_bucket_count, max_bucket_number) =>
           bind (bucket index) (fun probe =>
           bind (verify_chain entry_verify fuel probe 0) (fun bucket_count =>
           let element_count := to_int (element_count + bucket_count) in
           if bucket_count >? max_bucket_count
           then ret (element_count, bucket_count, index)
           else ret (element_count, max_bucket_count, max_bucket_number))))
        (ec, mbc, mbn) w
      = Ret ((ec + Z.of_nat (length (concat chains)), mbc', mbn'),
             with_output (output w ++ (VerifyEntry <$> concat chains)) w).
Proof.
  induction 1 as [|b c bs chains Hc _ IH];
    intros i w ec mbc mbn Hheap Hdrop Hfuel Hv H0 Hmax.
  - exists mbc, mbn. cbn. rewrite app_nil_r, Z.add_0_r. now destruct w.
  - cbn [concat] in *. rewrite length_app in Hfuel, Hmax.
    assert (Hb : _buckets (this w) !! i = Some b).
    { rewrite <- (Nat.add_0_r i), <- lookup_drop, Hdrop. reflexivity. }
    assert (Hbucket : bucket (Z.of_nat i) w = Ret (b, w)).
    { unfold bucket, gets, bind. now apply index_ok. }
    subst h.
    pose proof (verify_chain_spec c fuel b w 0 Hc ltac:(lia)
                  (fun a Ha => Hv a (proj2 (elem_of_app _ _ _) (or_introl Ha)))
                  ltac:(lia) ltac:(lia)) as Hrun1.
    cbn [length for_loop].
    unfold bind at 1. unfold bind at 1. rewrite Hbucket.
    unfold bind at 1. rewrite Hrun1.
    rewrite Z.add_0_l, to_int_small by (unfold INT_MAX in *; lia).
    set (w1 := with_output _ w).
    replace (Z.of_nat i + 1) with (Z.of_nat (S i)) by lia.
    assert (Hdrop' : drop (S i) (_buckets (this w1)) = bs).
    { cbn. rewrite (drop_S _ _ _ Hb) in Hdrop. now injection Hdrop. }
    assert (Hv' : forall a, a ∈ concat chains -> entry_verify (heap w1) a = true).
    { intros a Ha. apply Hv, elem_of_app. now right. }
    destruct (Z.of_nat (length c) >? mbc).
    + destruct (IH (S i) w1 (ec + Z.of_nat (length c)) (Z.of_nat (length c))
                  (Z.of_nat i) eq_refl Hdrop' ltac:(lia) Hv' ltac:(lia) ltac:(lia))
        as (mbc' & mbn' & Hrun).
      exists mbc', mbn'. unfold ret at 1. rewrite Hrun.
      rewrite length_app, Nat2Z.inj_add, Z.add_assoc.
      unfold w1, with_output. cbn [output this heap c_heap at_safepoint
        log_debug_enabled].
      now rewrite fmap_app, <- app_assoc.
    + destruct (IH (S i) w1 (ec + Z.of_nat (length c)) mbc mbn
                  eq_refl Hdrop' ltac:(lia) Hv' ltac:(lia) ltac:(lia))
        as (mbc' & mbn' & Hrun).
      exists mbc', mbn'. unfold ret at 1. rewrite Hrun.
      rewrite length_app, Nat2Z.inj_add, Z.add_assoc.
      unfold w1, with_output. cbn [output this heap c_heap at_safepoint
        log_debug_enabled].
      now rewrite fmap_app, <- app_assoc.
Qed.

Lemma with_output_id w : with_output (output w) w = w.
Proof. now destruct w. Qed.

Lemma debug_chain_spec l :
  forall (fuel : nat) (idx : Z) p w (c : Z),
    chain (heap w) p l ->
    (length l < fuel)%nat ->
    0 <= c -> c + Z.of_nat (length l) <= INT_MAX ->
    exists evs,
      debug_chain fuel idx p c w
      = Ret (c + Z.of_nat (length l), with_output (output w ++ evs) w).
Proof.
  induction l as [|a l IH]; intros fuel idx p w c Hc Hfuel H0 Hmax.
  - inversion Hc; subst.
    destruct fuel as [|fuel]; [simpl in Hfuel; lia|].
    exists []. cbn. rewrite app_nil_r, Z.add_0_r. now destruct w.
  - inversion Hc as [|p' e n hv l' Hp Hal He Hnx Hh Hc']; subst.
    destruct fuel as [|fuel]; [simpl in Hfuel; lia|].
    cbn [length] in *.
    destruct (IH fuel idx (make_ptr n)
                (with_output (output w ++ [LogDebugProbe idx hv]) w) (c + 1)
                Hc' ltac:(lia) ltac:(lia) ltac:(lia)) as (evs & Hrun).
    exists (LogDebugProbe idx hv :: evs).
    cbn [debug_chain]. rewrite (NULL_eqb _ Hp).
    rewrite (bind_Ret _ _ _ _ _ (entry_hash_ok w a e hv Hp He Hh)).
    unfold bind at 1, emit at 1, modify at 1.
    set (w1 := with_output _ w) in *.
    rewrite (bind_Ret _ _ _ _ _ (entry_next_ok w1 a e n Hp He Hnx)).
    rewrite to_int_small by (unfold INT_MAX in *; lia).
    rewrite Hrun.
    replace (c + 1 + Z.of_nat (length l)) with (c + Z.of_nat (S (length l))) by lia.
    unfold w1, with_output. cbn [output this heap c_heap at_safepoint
      log_debug_enabled].
    now rewrite <- app_assoc.
Qed.

Lemma debug_loop_spec h (fuel : nat) (bs : list Z) (chains : list (list Z)) :
  Forall2 (chain h) bs chains ->
  forall (i : nat) w,
    heap w = h ->
    drop i (_buckets (this w)) = bs ->
    (length (concat chains) < fuel)%nat ->
    Z.of_nat (length (concat chains)) <= INT_MAX ->
    exists evs,
      for_loop (length bs) (Z.of_nat i)
        (fun index (_ : unit) =>
           bind (bucket index) (fun probe =>
           bind (debug_chain fuel index probe 0) (fun bucket_count =>
           if bucket_count >? 0 then emit (LogDebugBucket index bucket_count)
           else ret tt)))
        tt w
      = Ret (tt, with_output (output w ++ evs) w).
Proof.
  induction 1 as [|b c bs chains Hc _ IH]; intros i w Hheap Hdrop Hfuel Hmax.
  - exists []. cbn. rewrite app_nil_r. now destruct w.
  - cbn [concat] in *. rewrite length_app in Hfuel, Hmax.
    assert (Hb : _buckets (this w) !! i = Some b).
    { rewrite <- (Nat.add_0_r i), <- lookup_drop, Hdrop. reflexivity. }
    assert (Hbucket : bucket (Z.of_nat i) w = Ret (b, w)).
    { unfold bucket, gets, bind. now apply index_ok. }
    subst h.
    destruct (debug_chain_spec c fuel (Z.of_nat i) b w 0 Hc
                ltac:(lia) ltac:(lia) ltac:(lia)) as (evs1 & Hrun1).
    assert (Hstep : exists evs2,
               bind (bucket (Z.of_nat i)) (fun probe =>
               bind (debug_chain fuel (Z.of_nat i) probe 0) (fun bucket_count =>
               if bucket_count >? 0
               then emit (LogDebugBucket (Z.of_nat i) bucket_count)
               else ret tt)) w
               = Ret (tt, with_output (output w ++ evs2) w)).
    { unfold bind at 1. rewrite Hbucket. unfold bind at 1. rewrite Hrun1.
      destruct (0 + Z.of_nat (length c) >? 0).
      - exists (evs1 ++ [LogDebugBucket (Z.of_nat i) (0 + Z.of_nat (length c))]).
        unfold emit, modify, with_output. cbn [output this heap c_heap at_safepoint
          log_debug_enabled]. now rewrite <- app_assoc.
      - exists evs1. reflexivity. }
    destruct Hstep as (evs2 & Hstep).
    set (w1 := with_output (output w ++ evs2) w) in *.
    destruct (IH (S i) w1 eq_refl) as (evs & Hrun); [| lia | lia |].
    { cbn. rewrite (drop_S _ _ _ Hb) in Hdrop. now injection Hdrop. }
    exists (evs2 ++ evs).
    cbn [length for_loop]. rewrite (bind_Ret _ _ _ _ _ Hstep).
    replace (Z.of_nat i + 1) with (Z.of_nat (S i)) by lia.
    rewrite Hrun. unfold w1, with_output. cbn [output this heap c_heap at_safepoint
      log_debug_enabled]. now rewrite <- app_assoc.
Qed.

Lemma count_entries_spec w (chains : list (list Z)) (fuel : nat) :
  table_ok w chains ->
  (forall p, p ∈ concat chains -> entry_verify (heap w) p = true) ->
  (length (concat chains) < fuel)%nat ->
  Z.of_nat (length (concat chains)) <= INT_MAX ->
  exists max_bucket_count max_bucket_number,
    count_entries entry_verify fuel w
    = Ret ((Z.of_nat (length (concat chains)), max_bucket_count, max_bucket_number),
           with_output (output w ++ (VerifyEntry <$> concat chains)) w).
Proof.
  intros [Hch Hsz _] Hv Hfuel Hmax.
  destruct (count_loop_spec (heap w) fuel _ _ Hch O w 0 0 0 eq_refl eq_refl
              Hfuel Hv ltac:(lia) ltac:(lia)) as (mbc & mbn & Hrun).
  exists mbc, mbn. unfold count_entries.
  unfold bind at 1, table_size at 1, gets at 1.
  rewrite <- Hsz, Nat2Z.id. exact Hrun.
Qed.

(** C9: [verify_table] walks every bucket, calls the hook on every entry
    and counts the entries on the chains.  With hooks that come back, it
    ends in the failure of its [guarantee], with the table name in the
    message, exactly when the count is not the recorded
    [number_of_entries]; when the two agree it returns, and table and
    entries are what they were: it only produced output. *)
Theorem verify_table_checks_count w (chains : list (list Z)) (fuel : nat)
    (table_name : string) :
  table_ok w chains ->
  (forall p, p ∈ concat chains -> entry_verify (heap w) p = true) ->
  (length (concat chains) < fuel)%nat ->
  Z.of_nat (length (concat chains)) <= INT_MAX ->
  (exists max_bucket_count max_bucket_number,
      count_entries entry_verify fuel w
      = Ret ((Z.of_nat (length (concat chains)), max_bucket_count, max_bucket_number),
             with_output (output w ++ (VerifyEntry <$> concat chains)) w)) /\
  (_number_of_entries (this w) <> Z.of_nat (length (concat chains)) <->
   verify_table entry_verify fuel table_name w
   = Err (GuaranteeFailed ("Verify of " +:+ table_name +:+ " failed"))) /\
  (_number_of_entries (this w) = Z.of_nat (length (concat chains)) <->
   exists evs,
     verify_table entry_verify fuel table_name w
     = Ret (tt, with_output
                  (output w ++ (VerifyEntry <$> concat chains) ++ evs) w)).
Proof.
  intros Hok Hv Hfuel Hmax.
  destruct (count_entries_spec w chains fuel Hok Hv Hfuel Hmax)
    as (mbc & mbn & Hcount).
  split; [now exists mbc, mbn|].
  set (len := Z.of_nat (length (concat chains))) in *.
  set (w1 := with_output (output w ++ (VerifyEntry <$> concat chains)) w) in *.
  assert (Hbad : _number_of_entries (this w) <> len ->
                 verify_table entry_verify fuel table_name w
                 = Err (GuaranteeFailed ("Verify of " +:+ table_name +:+ " failed"))).
  { intros Hne. unfold verify_table. rewrite (bind_Ret _ _ _ _ _ Hcount).
    unfold bind at 1, number_of_entries at 1, gets at 1.
    cbn [this w1 with_output].
    destruct (Z.eqb_spec (_number_of_entries (this w)) len); [contradiction|].
    reflexivity. }
  assert (Hgood : _number_of_entries (this w) = len ->
                  exists evs,
                    verify_table entry_verify fuel table_name w
                    = Ret (tt, with_output
                                 (output w ++ (VerifyEntry <$> concat chains) ++ evs) w)).
  { intros Heq. unfold verify_table. rewrite (bind_Ret _ _ _ _ _ Hcount).
    unfold bind at 1, number_of_entries at 1, gets at 1.
    cbn [this w1 with_output]. rewrite Heq, Z.eqb_refl.
    unfold bind at 1, guarantee at 1, ret at 1.
    unfold bind at 1, table_size at 1, gets at 1.
    unfold bind at 1, emit at 1, modify at 1.
    unfold bind at 1, gets at 1.
    set (info := LogInfo table_name mbc mbn len _).
    set (w2 := with_output _ _).
    destruct ((len >? 0) && log_debug_enabled w2).
    - destruct Hok as [Hch Hsz _].
      destruct (debug_loop_spec (heap w) fuel _ _ Hch O w2 eq_refl eq_refl
                  Hfuel Hmax) as (evs & Hrun).
      exists (info :: evs). unfold debug_trace.
      unfold bind at 1, table_size at 1, gets at 1.
      change (_table_size (this w2)) with (_table_size (this w)).
      change (Z.of_nat 0) with 0 in Hrun.
      rewrite <- Hsz, Nat2Z.id, Hrun.
      unfold w2, w1, with_output. cbn [output this heap c_heap at_safepoint
        log_debug_enabled]. now rewrite <- !app_assoc.
    - exists [info]. unfold ret, w2, w1, with_output.
      cbn [output this heap c_heap at_safepoint log_debug_enabled].
      now rewrite <- !app_assoc. }
  split; split.
  - exact Hbad.
  - intros Herr Heq. destruct (Hgood Heq) as (evs & Hrun). congruence.
  - exact Hgood.
  - intros (evs & Hrun).
    destruct (Z.eq_dec (_number_of_entries (this w)) len) as [|Hne]; [assumption|].
    rewrite (Hbad Hne) in Hrun. discriminate.
Qed.

End Verification.

(** * Further properties of the code *)

(** ** The allocator, path by path *)

Section AllocatorPaths.

Variable alloc_failmode : AllocFailType.

Ltac post_run :=
  lazymatch goal with
  | |- post (bind _ _) _ _ => apply post_bind
  | |- post (ret _) _ _ => apply post_ret
  | |- post (fail _) _ _ => apply post_fail
  | |- post (gets _) _ _ => apply post_gets
  | |- post (modify _) _ _ => apply post_modify
  | |- post (assert _ _ _) _ _ => apply post_assert
  | |- post (lift _) _ _ => apply post_lift; intros ? ?
  | |- post (store _ _) _ _ => apply post_store; intros ?
  | |- post (load _) _ _ => apply post_load; intros ? ? ?
  | |- post os_malloc _ _ => apply post_os_malloc
  | |- post (if ?b then _ else _) _ _ => destruct b eqn:?
  | |- post (match ?o with Some _ => _ | None => _ end) _ _ => destruct o eqn:?
  end.

Lemma post_assert_checked (cond : bool) (msg : string) w
    (Q : unit -> @World T -> Prop) :
  (ASSERT = false \/ cond = true -> Q tt w) ->
  post (assert ASSERT cond msg) w Q.
Proof.
  intros H. unfold assert.
  destruct ASSERT; cbn [andb].
  - destruct cond; cbn [negb]; [apply post_ret; auto | apply post_fail].
  - apply post_ret. auto.
Qed.

(** X1: with a free list, [new_entry] hands out its head: the free list
    moves on to the next free entry, the block list, the cursor, the end of
    the block and the C heap stay as they are, the hash is written and the
    link of the entry still points into the free list. *)
Theorem new_entry_takes_free_list_head w (hashValue fl n : Z) e :
  _free_list (this w) = fl -> fl <> NULL ->
  heap w !! fl = Some e -> _next e = Some n ->
  Z.rem (_entry_size (this w)) HeapWordSize = 0 ->
  exists w',
    new_entry ASSERT alloc_failmode hashValue w = Ret (fl, w') /\
    _free_list (this w') = make_ptr n /\
    _entry_blocks (this w') = _entry_blocks (this w) /\
    _first_free_entry (this w') = _first_free_entry (this w) /\
    _end_block (this w') = _end_block (this w) /\
    c_heap w' = c_heap w /\
    entry_hash fl w' = Ret (hashValue, w') /\
    entry_next fl w' = Ret (make_ptr n, w') /\
    (forall a, a <> fl -> heap w' !! a = heap w !! a).
Proof.
  intros Hfl Hnn He Hn Hword.
  eexists. split;
    [exact (new_entry_reuses_free_list alloc_failmode w hashValue fl n e
              Hfl Hnn He Hn Hword)|].
  set (e' := mkEntry (Some hashValue) (_next e) (_literal e)).
  set (w' := mkWorld _ _ _ _ _ _).
  assert (Hlook : heap w' !! fl = Some e') by apply lookup_insert_eq.
  repeat split.
  - now apply (entry_hash_ok w' fl e').
  - now apply (entry_next_ok w' fl e' n).
  - intros a Ha. cbn. now apply lookup_insert_ne.
Qed.


(** X3: in a debug build an entry that [new_entry] takes from a block lies
    inside the block: it ends at or before [_end_block], where the cursor
    then stands. *)
Theorem new_entry_fits_block w (hashValue entry : Z) w' :
  ASSERT = true ->
  _free_list (this w) = NULL ->
  new_entry ASSERT alloc_failmode hashValue w = Ret (entry, w') ->
  _first_free_entry (this w') = entry + _entry_size (this w) /\
  _first_free_entry (this w') <= _end_block (this w').
Proof.
  intros HA Hfl Hrun. revert entry w' Hrun.
  change (post (new_entry ASSERT alloc_failmode hashValue) w
            (fun entry w' =>
               _first_free_entry (this w') = entry + _entry_size (this w) /\
               _first_free_entry (this w') <= _end_block (this w'))).
  unfold new_entry, new_entry_free_list, entry_next, entry_size, entry_set_hash,
    NEW_C_HEAP_ARRAY2, AllocateHeap, modify_this, field.
  apply post_bind, post_bind, post_gets. rewrite Hfl. cbn [Z.eqb NULL negb].
  apply post_ret, post_bind. cbn [Z.eqb NULL].
  apply post_bind, post_gets, post_bind.
  destruct (Z.geb_spec (_first_free_entry (this w) + _entry_size (this w))
                       (_end_block (this w))) as [Hfull|Hroom].
  - apply post_bind, post_lift. intros len Hlen.
    apply post_bind, post_assert_checked. intros [HA'|Hfit]; [congruence|].
    apply Z.geb_le in Hfit.
    repeat post_run; cbn; lia.
  - repeat post_run; cbn; lia.
Qed.

(** X4: a block shorter than one entry.  When the length of the new block,
    rounded down to a power of two, is below [entry_size], a debug build
    stops at the assertion of line 67; a product build takes the block and
    returns its start, and the entry reaches beyond [_end_block]. *)
Theorem new_entry_short_block w (hashValue p : Z) (rest : list Z) :
  _free_list (this w) = NULL ->
  _first_free_entry (this w) + _entry_size (this w) >= _end_block (this w) ->
  0 < _entry_size (this w) * new_block_size (this w) <= INT_MAX ->
  2 ^ Z.log2 (_entry_size (this w) * new_block_size (this w))
    < _entry_size (this w) ->
  Z.rem (_entry_size (this w)) HeapWordSize = 0 ->
  c_heap w = p :: rest ->
  p <> NULL ->
  (ASSERT = true ->
   new_entry ASSERT alloc_failmode hashValue w = Err (AssertionFailed "")) /\
  (ASSERT = false ->
   exists w',
     new_entry ASSERT alloc_failmode hashValue w = Ret (p, w') /\
     _entry_blocks (this w') = _entry_blocks (this w) ++ [p] /\
     _end_block (this w') < p + _entry_size (this w) /\
     _end_block (this w') < _first_free_entry (this w')).
Proof.
  intros Hfl Hfull Hlen Hshort Hword Hmalloc Hp.
  destruct (shl_one_log2 _ Hlen) as [Hshl _].
  assert (Hstart :
    new_entry ASSERT alloc_failmode hashValue w
    = bind (bind (bind (assert ASSERT
                          (2 ^ Z.log2 (_entry_size (this w) * new_block_size (this w))
                           >=? _entry_size (this w)) "")
                   (fun _ =>
                      bind (NEW_C_HEAP_ARRAY2 alloc_failmode 1
                              (2 ^ Z.log2 (_entry_size (this w)
                                           * new_block_size (this w))))
                        (fun p =>
                           bind (modify_this (with_first_free_entry p)) (fun _ =>
                           bind (modify_this
                                   (fun t => with_entry_blocks (_entry_blocks t ++ [p]) t))
                             (fun _ =>
                                modify_this
                                  (with_end_block
                                     (p + 2 ^ Z.log2 (_entry_size (this w)
                                                      * new_block_size (this w)))))))))
              (fun _ =>
                 bind (gets (fun w => _first_free_entry (this w))) (fun entry =>
                 bind (modify_this
                         (fun t => with_first_free_entry (entry + _entry_size t) t))
                   (fun _ => ret entry))))
        (fun entry =>
           bind entry_size (fun es =>
           bind (assert ASSERT (Z.rem es HeapWordSize =? 0) "") (fun _ =>
           bind (entry_set_hash entry hashValue) (fun _ => ret entry)))) w).
  { unfold new_entry, new_entry_free_list.
    unfold bind at 1. unfold bind at 1. unfold gets at 1. rewrite Hfl.
    cbn [Z.eqb NULL negb]. unfold ret at 1. cbn [Z.eqb NULL].
    unfold bind at 1. unfold bind at 1. unfold gets at 1.
    destruct (Z.geb_spec (_first_free_entry (this w) + _entry_size (this w))
                         (_end_block (this w))) as [_|]; [|lia].
    rewrite (to_int_small (_ * _)) by (unfold INT_MAX in *; lia).
    unfold bind at 1. unfold bind at 1. unfold lift at 1. rewrite Hshl.
    reflexivity. }
  rewrite Hstart. clear Hstart.
  destruct (Z.geb_spec (2 ^ Z.log2 (_entry_size (this w) * new_block_size (this w)))
                       (_entry_size (this w))) as [|_]; [lia|].
  split; intros HA; rewrite HA.
  - reflexivity.
  - eexists. split.
    + unfold assert. cbn [andb].
      unfold NEW_C_HEAP_ARRAY2, AllocateHeap, os_malloc.
      unfold bind at 1. unfold bind at 1. unfold bind at 1. unfold ret at 1.
      unfold bind at 1. unfold bind at 1. rewrite Hmalloc, (NULL_eqb _ Hp).
      cbn [andb]. unfold ret at 1.
      unfold bind at 1, modify_this at 1, modify at 1.
      unfold bind at 1, modify_this at 1, modify at 1.
      unfold modify_this at 1, modify at 1.
      unfold bind at 1, gets at 1.
      unfold bind at 1, modify_this at 1, modify at 1.
      unfold ret at 1.
      unfold bind at 1, entry_size at 1, gets at 1.
      unfold bind at 1, ret at 1.
      unfold entry_set_hash, store, bind. 
      cbn [this with_this with_c_heap _entry_size with_first_free_entry
           with_end_block with_entry_blocks _first_free_entry].
      rewrite (NULL_eqb _ Hp). reflexivity.
    + cbn. repeat split; lia.
Qed.

(** X5: what [Hashtable::new_entry] returns is an entry, never the null
    pointer, from which the hash and the literal just given are read back;
    no other entry is written and the link of the entry is left as the
    storage had it. *)
Theorem Hashtable_new_entry_reads_back w (hashValue : Z) (obj : T) (entry : Z) w' :
  Hashtable_new_entry ASSERT alloc_failmode hashValue obj w = Ret (entry, w') ->
  entry <> NULL /\
  entry_hash entry w' = Ret (hashValue, w') /\
  entry_literal entry w' = Ret (obj, w') /\
  (_next <$> heap w' !! entry) = Some (_next (default raw_entry (heap w !! entry))) /\
  (forall a, a <> entry -> heap w' !! a = heap w !! a) /\
  _number_of_entries (this w') = _number_of_entries (this w) /\
  _buckets (this w') = _buckets (this w).
Proof.
  revert entry w'.
  change (post (Hashtable_new_entry ASSERT alloc_failmode hashValue obj) w
            (fun entry w' =>
               entry <> NULL /\
               entry_hash entry w' = Ret (hashValue, w') /\
               entry_literal entry w' = Ret (obj, w') /\
               (_next <$> heap w' !! entry)
               = Some (_next (default raw_entry (heap w !! entry))) /\
               (forall a, a <> entry -> heap w' !! a = heap w !! a) /\
               _number_of_entries (this w') = _number_of_entries (this w) /\
               _buckets (this w') = _buckets (this w))).
  unfold Hashtable_new_entry.
  apply post_bind.
  eapply post_weaken; [apply new_entry_post|].
  intros entry w1 (Hnn & Hheap & _ & Hn & Hb & _ & _).
  apply post_bind. unfold entry_set_literal.
  apply post_store. intros _. apply post_ret.
  set (e' := mkEntry _ _ _).
  set (w' := with_heap _ w1).
  assert (Hlook : heap w' !! entry = Some e') by apply lookup_insert_eq.
  assert (He' : e' = mkEntry (Some hashValue)
                       (_next (default raw_entry (heap w !! entry))) (Some obj)).
  { unfold e'. rewrite Hheap, lookup_insert_eq. reflexivity. }
  split; [exact Hnn|]. split; [|split; [|split; [|split; [|split]]]].
  - apply (entry_hash_ok w' entry e'); [exact Hnn | exact Hlook | now rewrite He'].
  - unfold entry_literal.
    rewrite (bind_Ret _ _ _ _ _ (load_ok _ _ _ Hnn Hlook)). now rewrite He'.
  - rewrite Hlook, He'. reflexivity.
  - intros a Ha. cbn. rewrite lookup_insert_ne by congruence.
    rewrite Hheap. now apply lookup_insert_ne.
  - exact Hn.
  - exact Hb.
Qed.

End AllocatorPaths.

(** ** More about [resize] and [maybe_grow] *)

(** X6: [resize] pushes every entry to the front of its new chain, old
    bucket after old bucket and each chain from its head on: the chain of
    new bucket [j] holds the entries whose hash falls to [j], in the reverse
    of the order in which the old table lists them. *)
Theorem resize_chain_order w (chains : list (list Z)) (new_size : Z)
    (fuel : nat) (buckets_new : Z) (rest : list Z) :
  table_ok w chains ->
  at_safepoint w = true ->
  0 < new_size <= INT_MAX ->
  c_heap w = buckets_new :: rest ->
  buckets_new <> NULL ->
  (length (concat chains) < fuel)%nat ->
  exists w',
    resize ASSERT fuel new_size w = Ret (true, w') /\
    length (_buckets (this w')) = Z.to_nat new_size /\
    (forall (j : nat) (hd : Z),
        _buckets (this w') !! j = Some hd ->
        chain (heap w') hd
          (reverse (filter (fun p => slot (heap w) new_size p = j) (concat chains)))).
Proof.
  intros Hok Hsp Hn Hmalloc Hnn Hfuel.
  destruct (resize_spec w chains new_size fuel buckets_new rest
              Hok Hsp Hn Hmalloc Hnn Hfuel) as (h' & bn' & Hrun & Hmv).
  exists (resized new_size h' bn' rest w). split; [exact Hrun|].
  destruct Hmv as [Hlen Hch _ _]. split; [exact Hlen|].
  intros j hd Hj. exact (Hch j hd Hj).
Qed.

(** X7: [resize] writes the bucket array, the table size and the links of
    the entries on the chains, and nothing else: the count of entries, the
    free list, the blocks and their cursor, the output and every entry that
    is on no chain are what they were. *)
Theorem resize_frame w (chains : list (list Z)) (new_size : Z)
    (fuel : nat) (buckets_new : Z) (rest : list Z) :
  table_ok w chains ->
  at_safepoint w = true ->
  0 < new_size <= INT_MAX ->
  c_heap w = buckets_new :: rest ->
  buckets_new <> NULL ->
  (length (concat chains) < fuel)%nat ->
  exists w',
    resize ASSERT fuel new_size w = Ret (true, w') /\
    _number_of_entries (this w') = _number_of_entries (this w) /\
    _entry_size (this w') = _entry_size (this w) /\
    _free_list (this w') = _free_list (this w) /\
    _first_free_entry (this w') = _first_free_entry (this w) /\
    _end_block (this w') = _end_block (this w) /\
    _entry_blocks (this w') = _entry_blocks (this w) /\
    output w' = output w /\
    c_heap w' = rest /\
    (forall a, a ∉ concat chains -> heap w' !! a = heap w !! a).
Proof.
  intros Hok Hsp Hn Hmalloc Hnn Hfuel.
  destruct (resize_spec w chains new_size fuel buckets_new rest
              Hok Hsp Hn Hmalloc Hnn Hfuel) as (h' & bn' & Hrun & Hmv).
  exists (resized new_size h' bn' rest w). split; [exact Hrun|].
  repeat split. intros a Ha. exact (moved_rest _ _ _ _ _ Hmv a Ha).
Qed.

Lemma filter_ext_elem (P Q : Z -> Prop) `{!forall x, Decision (P x)}
    `{!forall x, Decision (Q x)} (l : list Z) :
  (forall x, x ∈ l -> P x <-> Q x) -> filter P l = filter Q l.
Proof.
  induction l as [|a l IH]; intros Hext; [reflexivity|].
  rewrite !filter_cons.
  assert (Ha : P a <-> Q a) by (apply Hext, list_elem_of_here).
  rewrite IH by (intros x Hx; apply Hext; now apply list_elem_of_further).
  destruct (decide (P a)), (decide (Q a)); tauto.
Qed.

Lemma same_entry_slot (h0 h : gmap Z (@Entry T)) (n : Z) p :
  same_entry h0 h p -> slot h n p = slot h0 n p.
Proof.
  intros (e & e' & m & m' & H0 & H1 & Hh & _).
  unfold slot. now rewrite H0, H1, Hh.
Qed.

(** X8: where [resize] puts an entry depends on its hash and on the new
    size, not on the way there: a table resized to [size_a] and then to
    [size_b] has, bucket for bucket, the entries of the table resized to
    [size_b] at once. *)
Theorem resize_via_other_size w (chains : list (list Z)) (size_a size_b : Z)
    (fuel : nat) (pa pb : Z) (rest : list Z) :
  table_ok w chains ->
  at_safepoint w = true ->
  0 < size_a <= INT_MAX ->
  0 < size_b <= INT_MAX ->
  c_heap w = pa :: pb :: rest ->
  pa <> NULL -> pb <> NULL ->
  (length (concat chains) < fuel)%nat ->
  exists wa wab chains_ab wb chains_b,
    resize ASSERT fuel size_a w = Ret (true, wa) /\
    resize ASSERT fuel size_b wa = Ret (true, wab) /\
    resize ASSERT fuel size_b w = Ret (true, wb) /\
    table_ok wab chains_ab /\
    table_ok wb chains_b /\
    Forall2 (≡ₚ) chains_ab chains_b /\
    (forall p, p ∈ concat chains -> entry_view (heap wab) p = entry_view (heap wb) p).
Proof.
  intros Hok Hsp Ha Hb Hmalloc Hpa Hpb Hfuel.
  destruct (resize_spec w chains size_a fuel pa (pb :: rest)
              Hok Hsp Ha Hmalloc Hpa Hfuel) as (h1 & bn1 & Hrun1 & Hmv1).
  set (wa := resized size_a h1 bn1 (pb :: rest) w) in *.
  set (chains_a := rehashed (heap w) size_a (concat chains)).
  assert (Hoka : table_ok wa chains_a)
    by (apply moved_table_ok; [lia | apply (ok_nodup _ _ Hok) | exact Hmv1]).
  assert (Hperm_a : concat chains_a ≡ₚ concat chains)
    by (apply rehashed_Permutation; lia).
  assert (Hfuel_a : (length (concat chains_a) < fuel)%nat)
    by now rewrite Hperm_a.
  destruct (resize_spec wa chains_a size_b fuel pb rest
              Hoka Hsp Hb eq_refl Hpb Hfuel_a) as (h2 & bn2 & Hrun2 & Hmv2).
  destruct (resize_spec w chains size_b fuel pa (pb :: rest)
              Hok Hsp Hb Hmalloc Hpa Hfuel) as (h3 & bn3 & Hrun3 & Hmv3).
  exists wa, (resized size_b h2 bn2 rest wa),
    (rehashed (heap wa) size_b (concat chains_a)),
    (resized size_b h3 bn3 (pb :: rest) w),
    (rehashed (heap w) size_b (concat chains)).
  split; [exact Hrun1|]. split; [exact Hrun2|]. split; [exact Hrun3|].
  split; [apply moved_table_ok; [lia | apply (ok_nodup _ _ Hoka) | exact Hmv2]|].
  split; [apply moved_table_ok; [lia | apply (ok_nodup _ _ Hok) | exact Hmv3]|].
  split.
  - unfold rehashed. apply Forall2_fmap, Forall_Forall2_diag, Forall_forall.
    intros j _. unfold regroup. rewrite !reverse_Permutation, Hperm_a.
    rewrite (filter_ext_elem
               (fun p => slot (heap wa) size_b p = j)
               (fun p => slot (heap w) size_b p = j)); [reflexivity|].
    intros p Hp. rewrite (same_entry_slot (heap w) (heap wa)); [reflexivity|].
    exact (moved_same _ _ _ _ _ Hmv1 p Hp).
  - intros p Hp. cbn [heap resized].
    rewrite (same_entry_view (heap w) h3 p (moved_same _ _ _ _ _ Hmv3 p Hp)).
    rewrite (same_entry_view (heap wa) h2 p).
    + exact (same_entry_view (heap w) h1 p (moved_same _ _ _ _ _ Hmv1 p Hp)).
    + apply (moved_same _ _ _ _ _ Hmv2). now rewrite Hperm_a.
Qed.

(** The loop over the old buckets, once the table size reads zero: the
    first entry it meets has no bucket to go to. *)
Lemma move_buckets_zero h (fuel : nat) (bs : list Z) (chains : list (list Z)) :
  Forall2 (chain h) bs chains ->
  concat chains <> [] ->
  forall (i : nat) w bn,
    heap w = h ->
    _table_size (this w) = 0 ->
    drop i (_buckets (this w)) = bs ->
    (0 < fuel)%nat ->
    for_loop (length bs) (Z.of_nat i)
      (fun index_old b => bind (bucket index_old) (fun p => move_entries fuel p b))
      bn w
    = Err UndefinedBehaviour.
Proof.
  induction 1 as [|b c bs chains Hc _ IH]; intros Hne i w bn Hheap Hz Hdrop Hfuel.
  - now contradiction Hne.
  - assert (Hb : _buckets (this w) !! i = Some b).
    { rewrite <- (Nat.add_0_r i), <- lookup_drop, Hdrop. reflexivity. }
    assert (Hbucket : bucket (Z.of_nat i) w = Ret (b, w)).
    { unfold bucket, gets, bind. now apply index_ok. }
    destruct fuel as [|fuel]; [lia|].
    cbn [length for_loop]. unfold bind at 1. unfold bind at 1. rewrite Hbucket.
    subst h. inversion Hc as [|p e n hv l Hp Hal He Hnx Hh Hc']; subst.
    + cbn [move_entries Z.eqb NULL]. unfold ret at 1.
      replace (Z.of_nat i + 1) with (Z.of_nat (S i)) by lia.
      apply (IH Hne (S i) w bn eq_refl Hz); [|exact Hfuel].
      rewrite (drop_S _ _ _ Hb) in Hdrop. now injection Hdrop.
    + cbn [move_entries]. rewrite (NULL_eqb _ Hp).
      rewrite (bind_Ret _ _ _ _ _ (entry_next_ok _ _ _ _ Hp He Hnx)).
      rewrite (bind_Ret _ _ _ _ _ (entry_is_shared_ok _ _ _ _ Hp He Hnx)).
      rewrite (bind_Ret _ _ _ _ _ (entry_hash_ok _ _ _ _ Hp He Hh)).
      unfold hash_to_index, table_size, gets, lift, bind. rewrite Hz.
      reflexivity.
Qed.

(** X9: [resize] has no guard on its argument.  A call with [new_size = 0]
    on a table that holds an entry gets its (empty) bucket array, sets the
    table size to zero and then takes the hash of the first entry modulo
    zero. *)
Theorem resize_to_zero w (chains : list (list Z)) (fuel : nat)
    (buckets_new : Z) (rest : list Z) :
  table_ok w chains ->
  concat chains <> [] ->
  at_safepoint w = true ->
  c_heap w = buckets_new :: rest ->
  buckets_new <> NULL ->
  (0 < fuel)%nat ->
  resize ASSERT fuel 0 w = Err UndefinedBehaviour.
Proof.
  intros [Hch Hsz _] Hne Hsp Hmalloc Hnn Hfuel.
  unfold resize.
  unfold bind at 1, gets at 1. rewrite Hsp.
  rewrite (bind_Ret _ _ _ _ _ (assert_ok true _ w eq_refl)).
  assert (Halloc : NEW_C_HEAP_ARRAY2_RETURN_NULL 8 0 w
                   = Ret (buckets_new, with_c_heap rest w)).
  { unfold NEW_C_HEAP_ARRAY2_RETURN_NULL, AllocateHeap, bind, os_malloc.
    rewrite Hmalloc. now rewrite andb_false_r. }
  rewrite (bind_Ret _ _ _ _ _ Halloc), (NULL_eqb _ Hnn).
  change (Z.to_nat 0) with 0%nat. cbn [for_loop replicate].
  unfold bind at 1, ret at 1.
  unfold bind at 1, table_size at 1, gets at 1.
  unfold bind at 1, modify_this at 1, modify at 1.
  cbn [this with_c_heap].
  rewrite <- Hsz, Nat2Z.id.
  set (w1 := with_this _ _).
  pose proof (move_buckets_zero (heap w) fuel _ _ Hch Hne O w1 [] eq_refl eq_refl
                eq_refl Hfuel) as Hloop.
  change (Z.of_nat 0) with 0 in Hloop.
  unfold bind at 1. now rewrite Hloop.
Qed.

(** X10: [resize] keeps the count right: [number_of_entries] is not
    written, and the walk of [verify_table] over the chains counts as many
    entries after the call as before. *)
Theorem resize_keeps_count w (chains : list (list Z)) (new_size : Z)
    (fuel : nat) (buckets_new : Z) (rest : list Z) :
  table_ok w chains ->
  at_safepoint w = true ->
  0 < new_size <= INT_MAX ->
  c_heap w = buckets_new :: rest ->
  buckets_new <> NULL ->
  (length (concat chains) < fuel)%nat ->
  Z.of_nat (length (concat chains)) <= INT_MAX ->
  exists w' (counted : Z) m1 m2 m1' m2' w1 w1',
    resize ASSERT fuel new_size w = Ret (true, w') /\
    _number_of_entries (this w') = _number_of_entries (this w) /\
    count_entries (fun _ _ => true) fuel w = Ret ((counted, m1, m2), w1) /\
    count_entries (fun _ _ => true) fuel w' = Ret ((counted, m1', m2'), w1') /\
    counted = Z.of_nat (length (concat chains)).
Proof.
  intros Hok Hsp Hn Hmalloc Hnn Hfuel Hmax.
  destruct (resize_spec w chains new_size fuel buckets_new rest
              Hok Hsp Hn Hmalloc Hnn Hfuel) as (h' & bn' & Hrun & Hmv).
  set (w' := resized new_size h' bn' rest w) in *.
  set (chains' := rehashed (heap w) new_size (concat chains)).
  assert (Hok' : table_ok w' chains')
    by (apply moved_table_ok; [lia | apply (ok_nodup _ _ Hok) | exact Hmv]).
  assert (Hperm : concat chains' ≡ₚ concat chains)
    by (apply rehashed_Permutation; lia).
  destruct (count_entries_spec (fun _ _ => true) w chains fuel Hok
              (fun _ _ => eq_refl) Hfuel Hmax) as (m1 & m2 & Hc).
  assert (Hlen : length (concat chains') = length (concat chains))
    by (apply Permutation_length, Hperm).
  destruct (count_entries_spec (fun _ _ => true) w' chains' fuel Hok'
              (fun _ _ => eq_refl)) as (m1' & m2' & Hc');
    [now rewrite Hlen | now rewrite Hlen |].
  rewrite Hlen in Hc'.
  exists w', (Z.of_nat (length (concat chains))), m1, m2, m1', m2'.
  do 2 eexists. split; [exact Hrun|]. split; [reflexivity|].
  split; [exact Hc|]. split; [exact Hc'|]. reflexivity.
Qed.


(** ** More about [verify_table] *)

Section VerifyMore.

Variable entry_verify : gmap Z (@Entry T) -> Z -> bool.

(** A chain whose hooks all come back is walked to its end; only output is
    produced. *)
Lemma verify_chain_passes l :
  forall (fuel : nat) p w (c : Z),
    chain (heap w) p l ->
    (length l < fuel)%nat ->
    (forall a, a ∈ l -> entry_verify (heap w) a = true) ->
    exists (c' : Z),
      verify_chain entry_verify fuel p c w
      = Ret (c', with_output (output w ++ (VerifyEntry <$> l)) w).
Proof.
  induction l as [|a l IH]; intros fuel p w c Hc Hfuel Hv.
  - inversion Hc; subst.
    destruct fuel as [|fuel]; [simpl in Hfuel; lia|].
    exists c. cbn. rewrite app_nil_r. now destruct w.
  - inversion Hc as [|p' e n hv l' Hp Hal He Hnx Hh Hc']; subst.
    destruct fuel as [|fuel]; [simpl in Hfuel; lia|].
    cbn [verify_chain length] in *. rewrite (NULL_eqb _ Hp).
    rewrite (bind_Ret _ _ _ _ _
               (probe_verify_ok entry_verify w a (Hv a (list_elem_of_here _ _)))).
    set (w1 := with_output _ w).
    rewrite (bind_Ret _ _ _ _ _ (entry_next_ok w1 a e n Hp He Hnx)).
    destruct (IH fuel (make_ptr n) w1 (to_int (c + 1)) Hc' ltac:(lia)) as (c' & Hrun).
    { intros b Hb. apply Hv. now apply list_elem_of_further. }
    exists c'. rewrite Hrun.
    unfold w1, with_output. cbn [output this heap c_heap at_safepoint
      log_debug_enabled fmap list_fmap].
    now rewrite <- app_assoc.
Qed.

(** A chain with an entry whose hook fails is walked up to that entry. *)
Lemma verify_chain_fails l1 :
  forall (fuel : nat) q w (c : Z) p l2,
    chain (heap w) q (l1 ++ p :: l2) ->
    (length (l1 ++ p :: l2) < fuel)%nat ->
    (forall a, a ∈ l1 -> entry_verify (heap w) a = true) ->
    entry_verify (heap w) p = false ->
    verify_chain entry_verify fuel q c w = Err (EntryVerifyFailed p).
Proof.
  induction l1 as [|a l1 IH]; intros fuel q w c p l2 Hc Hfuel Hv Hbad;
    inversion Hc as [|p' e n hv l' Hp Hal He Hnx Hh Hc']; subst;
    (destruct fuel as [|fuel]; [simpl in Hfuel; lia|]);
    cbn [verify_chain]; rewrite (NULL_eqb _ Hp).
  - unfold probe_verify, emit, modify, gets, bind. cbn. now rewrite Hbad.
  - rewrite (bind_Ret _ _ _ _ _
               (probe_verify_ok entry_verify w a (Hv a (list_elem_of_here _ _)))).
    set (w1 := with_output _ w).
    rewrite (bind_Ret _ _ _ _ _ (entry_next_ok w1 a e n Hp He Hnx)).
    apply (IH fuel (make_ptr n) w1 (to_int (c + 1)) p l2 Hc').
    + simpl in Hfuel. lia.
    + intros b Hb. apply Hv. now apply list_elem_of_further.
    + exact Hbad.
Qed.

Lemma count_loop_fails h (fuel : nat) (bs : list Z) (chains : list (list Z)) :
  Forall2 (chain h) bs chains ->
  forall (pre : list Z) (p : Z) (rest : list Z) (i : nat) w (acc : Z * Z * Z),
    heap w = h ->
    drop i (_buckets (this w)) = bs ->
    concat chains = pre ++ p :: rest ->
    (length (concat chains) < fuel)%nat ->
    (forall a, a ∈ pre -> entry_verify h a = true) ->
    entry_verify h p = false ->
    for_loop (length bs) (Z.of_nat i)
      (fun index '(element_count, max_bucket_count, max_bucket_number) =>
         bind (bucket index) (fun probe =>
         bind (verify_chain entry_verify fuel probe 0) (fun bucket_count =>
         let element_count := to_int (element_count + bucket_count) in
         if bucket_count >? max_bucket_count
         then ret (element_count, bucket_count, index)
         else ret (element_count, max_bucket_count, max_bucket_number))))
      acc w
    = Err (EntryVerifyFailed p).
Proof.
  induction 1 as [|b c bs chains Hc _ IH];
    intros pre p rest i w [[ec mbc] mbn] Hheap Hdrop Hsplit Hfuel Hv Hbad.
  - cbn in Hsplit. now destruct pre.
  - cbn [concat] in *. rewrite length_app in Hfuel.
    assert (Hb : _buckets (this w) !! i = Some b).
    { rewrite <- (Nat.add_0_r i), <- lookup_drop, Hdrop. reflexivity. }
    assert (Hbucket : bucket (Z.of_nat i) w = Ret (b, w)).
    { unfold bucket, gets, bind. now apply index_ok. }
    assert (Hdrop' : drop (S i) (_buckets (this w)) = bs).
    { rewrite (drop_S _ _ _ Hb) in Hdrop. now injection Hdrop. }
    subst h. cbn [length for_loop].
    unfold bind at 1. unfold bind at 1. rewrite Hbucket. unfold bind at 1.
    match goal with
    | |- ?G =>
        assert (Hpass : forall pre',
                   (forall a, a ∈ c -> entry_verify (heap w) a = true) ->
                   concat chains = pre' ++ p :: rest ->
                   (forall a, a ∈ pre' -> entry_verify (heap w) a = true) -> G)
    end.
    { intros pre' Hvc Hsplit' Hv'.
      destruct (verify_chain_passes c fuel b w 0 Hc ltac:(lia) Hvc) as (c' & ->).
      replace (Z.of_nat i + 1) with (Z.of_nat (S i)) by lia.
      set (w1 := with_output _ w).
      destruct (c' >? mbc); unfold ret at 1;
        apply (IH pre' p rest (S i) w1 _ eq_refl Hdrop' Hsplit' ltac:(lia) Hv' Hbad). }
    apply app_eq_inv in Hsplit as [(k & Hc_eq & Hk)|(k & Hpre & Hk)].
    + destruct k as [|p' k].
      * rewrite app_nil_r in Hc_eq. subst c. cbn in Hk.
        apply (Hpass []); [exact Hv | now rewrite <- Hk |].
        intros a Ha. now apply not_elem_of_nil in Ha.
      * injection Hk as <- Hrest. subst c.
        rewrite (verify_chain_fails pre fuel b w 0 p k Hc ltac:(lia) Hv Hbad).
        reflexivity.
    + subst pre. apply (Hpass k); [| exact Hk |].
      * intros a Ha. apply Hv, elem_of_app. now left.
      * intros a Ha. apply Hv, elem_of_app. now right.
Qed.

(** X12: [verify_table] calls the hook entry by entry, bucket after bucket
    and each chain from its head on; it ends with the failure of the first
    entry whose hook fails, whatever [number_of_entries] says: the count is
    not compared before all hooks have come back. *)
Theorem verify_table_stops_at_failing_hook w (chains : list (list Z))
    (fuel : nat) (table_name : string) (pre : list Z) (p : Z) (rest : list Z) :
  table_ok w chains ->
  concat chains = pre ++ p :: rest ->
  (forall a, a ∈ pre -> entry_verify (heap w) a = true) ->
  entry_verify (heap w) p = false ->
  (length (concat chains) < fuel)%nat ->
  count_entries entry_verify fuel w = Err (EntryVerifyFailed p) /\
  verify_table entry_verify fuel table_name w = Err (EntryVerifyFailed p).
Proof.
  intros [Hch Hsz _] Hsplit Hv Hbad Hfuel.
  assert (Hcount : count_entries entry_verify fuel w = Err (EntryVerifyFailed p)).
  { unfold count_entries. unfold bind at 1, table_size at 1, gets at 1.
    rewrite <- Hsz, Nat2Z.id.
    exact (count_loop_fails (heap w) fuel _ _ Hch pre p rest O w (0, 0, 0)
             eq_refl eq_refl Hsplit Hfuel Hv Hbad). }
  split; [exact Hcount|].
  unfold verify_table. unfold bind at 1. now rewrite Hcount.
Qed.

(** The counting loop, with what it remembers of the longest chain. *)
Lemma count_loop_longest h (fuel : nat) (bs : list Z) (chains : list (list Z)) :
  Forall2 (chain h) bs chains ->
  forall (i : nat) w (ec mbc mbn : Z),
    heap w = h ->
    drop i (_buckets (this w)) = bs ->
    (length (concat chains) < fuel)%nat ->
    (forall a, a ∈ concat chains -> entry_verify h a = true) ->
    0 <= ec -> ec + Z.of_nat (length (concat chains)) <= INT_MAX ->
    exists mbc' mbn' w',
      for_loop (length bs) (Z.of_nat i)
        (fun index '(element_count, max_bucket_count, max_bucket_number) =>
           bind (bucket index) (fun probe =>
           bind (verify_chain entry_verify fuel probe 0) (fun bucket_count =>
           let element_count := to_int (element_count + bucket_count) in
           if bucket_count >? max_bucket_count
           then ret (element_count, bucket_count, index)
           else ret (element_count, max_bucket_count, max_bucket_number))))
        (ec, mbc, mbn) w
      = Ret ((ec + Z.of_nat (length (concat chains)), mbc', mbn'), w') /\
      mbc <= mbc' /\
      (forall c, c ∈ chains -> Z.of_nat (length c) <= mbc') /\
      ((mbc' = mbc /\ mbn' = mbn) \/
       exists (k : nat) c,
         mbn' = Z.of_nat (i + k) /\ chains !! k = Some c /\
         Z.of_nat (length c) = mbc' /\ mbc < mbc' /\
         forall (k' : nat) c', (k' < k)%nat -> chains !! k' = Some c' ->
                               Z.of_nat (length c') < mbc').
Proof.
  induction 1 as [|b c bs chains Hc _ IH];
    intros i w ec mbc mbn Hheap Hdrop Hfuel Hv H0 Hmax.
  - exists mbc, mbn, w. cbn. rewrite Z.add_0_r.
    split; [reflexivity|]. split; [lia|]. split; [|now left].
    intros c Hc. now apply not_elem_of_nil in Hc.
  - cbn [concat] in *. rewrite length_app in Hfuel, Hmax.
    assert (Hb : _buckets (this w) !! i = Some b).
    { rewrite <- (Nat.add_0_r i), <- lookup_drop, Hdrop. reflexivity. }
    assert (Hbucket : bucket (Z.of_nat i) w = Ret (b, w)).
    { unfold bucket, gets, bind. now apply index_ok. }
    subst h.
    pose proof (verify_chain_spec entry_verify c fuel b w 0 Hc ltac:(lia)
                  (fun a Ha => Hv a (proj2 (elem_of_app _ _ _) (or_introl Ha)))
                  ltac:(lia) ltac:(lia)) as Hrun1.
    cbn [length for_loop].
    unfold bind at 1. unfold bind at 1. rewrite Hbucket.
    unfold bind at 1. rewrite Hrun1.
    rewrite Z.add_0_l, to_int_small by (unfold INT_MAX in *; lia).
    set (w1 := with_output _ w).
    replace (Z.of_nat i + 1) with (Z.of_nat (S i)) by lia.
    assert (Hdrop' : drop (S i) (_buckets (this w1)) = bs).
    { cbn. rewrite (drop_S _ _ _ Hb) in Hdrop. now injection Hdrop. }
    assert (Hv' : forall a, a ∈ concat chains -> entry_verify (heap w1) a = true).
    { intros a Ha. apply Hv, elem_of_app. now right. }
    rewrite length_app, Nat2Z.inj_add, Z.add_assoc.
    destruct (Z.gtb_spec (Z.of_nat (length c)) mbc) as [Hgt|Hle].
    + destruct (IH (S i) w1 (ec + Z.of_nat (length c)) (Z.of_nat (length c))
                  (Z.of_nat i) eq_refl Hdrop' ltac:(lia) Hv' ltac:(lia) ltac:(lia))
        as (mbc' & mbn' & w' & Hrun & Hge & Hall & Hwhere).
      exists mbc', mbn', w'. unfold ret at 1. split; [exact Hrun|].
      split; [lia|]. split.
      * intros c0 [->|Hc0]%elem_of_cons; [lia | now apply Hall].
      * right. destruct Hwhere as [[-> ->]|(k & c0 & -> & Hk & Hlen & Hlt & Hfirst)].
        -- exists O, c. rewrite Nat.add_0_r.
           repeat split; try reflexivity; lia.
        -- exists (S k), c0. repeat split; try assumption; try lia.
           intros [|k'] c' Hk' Hc'.
           ++ cbn in Hc'. injection Hc' as <-. lia.
           ++ apply (Hfirst k' c'); [lia | exact Hc'].
    + destruct (IH (S i) w1 (ec + Z.of_nat (length c)) mbc mbn
                  eq_refl Hdrop' ltac:(lia) Hv' ltac:(lia) ltac:(lia))
        as (mbc' & mbn' & w' & Hrun & Hge & Hall & Hwhere).
      exists mbc', mbn', w'. unfold ret at 1. split; [exact Hrun|].
      split; [lia|]. split.
      * intros c0 [->|Hc0]%elem_of_cons; [lia | now apply Hall].
      * destruct Hwhere as [[-> ->]|(k & c0 & -> & Hk & Hlen & Hlt & Hfirst)];
          [now left|].
        right. exists (S k), c0. repeat split; try assumption; try lia.
        intros [|k'] c' Hk' Hc'.
        -- cbn in Hc'. injection Hc' as <-. lia.
        -- apply (Hfirst k' c'); [lia | exact Hc'].
Qed.

(** X13: besides the count, the walk of [verify_table] finds the longest
    chain: the length it reports is that of the longest chain, and the
    bucket it reports is the first one with a chain of that length (bucket 0
    and length 0 for a table without entries). *)
Theorem count_entries_longest_chain w (chains : list (list Z)) (fuel : nat) :
  table_ok w chains ->
  (forall p, p ∈ concat chains -> entry_verify (heap w) p = true) ->
  (length (concat chains) < fuel)%nat ->
  Z.of_nat (length (concat chains)) <= INT_MAX ->
  exists (max_bucket_count max_bucket_number : Z) w',
    count_entries entry_verify fuel w
    = Ret ((Z.of_nat (length (concat chains)), max_bucket_count,
            max_bucket_number), w') /\
    (forall c, c ∈ chains -> Z.of_nat (length c) <= max_bucket_count) /\
    ((max_bucket_count = 0 /\ max_bucket_number = 0) \/
     exists (k : nat) c,
       max_bucket_number = Z.of_nat k /\ chains !! k = Some c /\
       Z.of_nat (length c) = max_bucket_count /\
       forall (k' : nat) c', (k' < k)%nat -> chains !! k' = Some c' ->
                             Z.of_nat (length c') < max_bucket_count).
Proof.
  intros [Hch Hsz _] Hv Hfuel Hmax.
  destruct (count_loop_longest (heap w) fuel _ _ Hch O w 0 0 0 eq_refl eq_refl
              Hfuel Hv ltac:(lia) ltac:(lia))
    as (mbc & mbn & w' & Hrun & _ & Hall & Hwhere).
  exists mbc, mbn, w'. split; [|split; [exact Hall|]].
  - unfold count_entries. unfold bind at 1, table_size at 1, gets at 1.
    rewrite <- Hsz, Nat2Z.id. exact Hrun.
  - destruct Hwhere as [H|(k & c & Hn & Hk & Hlen & _ & Hfirst)]; [now left|].
    right. exists k, c. repeat split; assumption.
Qed.

End VerifyMore.

(** ** Statistics *)

Lemma total_app (l1 l2 : list Z) : total (l1 ++ l2) = total l1 + total l2.
Proof.
  unfold total. induction l1 as [|a l1 IH]; cbn; [reflexivity|].
  rewrite IH. lia.
Qed.

Lemma total_Permutation (l1 l2 : list Z) : l1 ≡ₚ l2 -> total l1 = total l2.
Proof.
  unfold total. induction 1; cbn; lia.
Qed.

Lemma total_nonneg (l : list Z) : Forall (fun x => 0 <= x) l -> 0 <= total l.
Proof.
  unfold total. induction 1; cbn; lia.
Qed.

Lemma total_lengths (chains : list (list Z)) :
  total ((fun c => Z.of_nat (length c)) <$> chains)
  = Z.of_nat (length (concat chains)).
Proof.
  unfold total. induction chains as [|c chains IH]; cbn; [reflexivity|].
  rewrite IH, length_app. lia.
Qed.

Section Statistics.

Variable literal_size : T -> Z.
Variable literal_load_barrier : option (Z -> @M T T).

(** The walk along one chain counts its entries and adds up the sizes of
    their payloads. *)
Lemma statistics_chain_spec w (lit : Z -> T) l :
  forall (fuel : nat) p (count bytes : Z),
    chain (heap w) p l ->
    (length l < fuel)%nat ->
    (forall a, a ∈ l -> load_literal literal_load_barrier a w = Ret (lit a, w)) ->
    (forall a, a ∈ l -> 0 <= literal_size (lit a)) ->
    0 <= count -> count + Z.of_nat (length l) <= INT_MAX ->
    0 <= bytes -> bytes + total (literal_size ∘ lit <$> l) <= INT_MAX ->
    statistics_chain literal_size literal_load_barrier fuel p count bytes w
    = Ret ((count + Z.of_nat (length l),
            bytes + total (literal_size ∘ lit <$> l)), w).
Proof.
  induction l as [|a l IH]; intros fuel p count bytes Hc Hfuel Hlit Hpos Hc0 Hc1 Hb0 Hb1.
  - inversion Hc; subst.
    destruct fuel as [|fuel]; [simpl in Hfuel; lia|].
    cbn. now rewrite !Z.add_0_r.
  - inversion Hc as [|p' e n hv l' Hp Hal He Hnx Hh Hc']; subst.
    destruct fuel as [|fuel]; [simpl in Hfuel; lia|].
    assert (Hpa : 0 <= literal_size (lit a)) by apply Hpos, list_elem_of_here.
    assert (Hrest : 0 <= total (literal_size ∘ lit <$> l)).
    { apply total_nonneg, Forall_fmap, Forall_forall. intros b Hb.
      apply Hpos. now apply list_elem_of_further. }
    cbn [statistics_chain length fmap list_fmap total foldr compose] in *.
    fold (total (literal_size ∘ lit <$> l)) in *.
    rewrite (NULL_eqb _ Hp).
    rewrite (bind_Ret _ _ _ _ _ (Hlit a (list_elem_of_here _ _))).
    rewrite (bind_Ret _ _ _ _ _ (entry_next_ok w a e n Hp He Hnx)).
    rewrite !to_int_small by (unfold INT_MAX in *; lia).
    rewrite (IH fuel (make_ptr n) (count + 1) (bytes + literal_size (lit a)) Hc');
      try lia.
    + do 3 f_equal; lia.
    + intros b Hb. apply Hlit. now apply list_elem_of_further.
    + intros b Hb. apply Hpos. now apply list_elem_of_further.
Qed.

(** The loop over the buckets: one sample per bucket, the length of its
    chain, and the bytes of all payloads. *)
Lemma statistics_loop_spec w (lit : Z -> T) (fuel : nat) (bs : list Z)
    (chains : list (list Z)) :
  Forall2 (chain (heap w)) bs chains ->
  forall (i : nat) (summary : list Z) (bytes : Z),
    drop i (_buckets (this w)) = bs ->
    (length (concat chains) < fuel)%nat ->
    (forall a, a ∈ concat chains ->
               load_literal literal_load_barrier a w = Ret (lit a, w)) ->
    (forall a, a ∈ concat chains -> 0 <= literal_size (lit a)) ->
    Z.of_nat (length (concat chains)) <= INT_MAX ->
    0 <= bytes ->
    bytes + total (literal_size ∘ lit <$> concat chains) <= INT_MAX ->
    for_loop (length bs) (Z.of_nat i)
      (fun i '(summary, literal_bytes) =>
         bind (bucket i) (fun head =>
         bind (statistics_chain literal_size literal_load_barrier fuel head 0
                 literal_bytes) (fun r =>
         let '(count, literal_bytes) := r in
         ret (NumberSeq_add summary count, literal_bytes))))
      (summary, bytes) w
    = Ret ((summary ++ ((fun c => Z.of_nat (length c)) <$> chains),
            bytes + total (literal_size ∘ lit <$> concat chains)), w).
Proof.
  induction 1 as [|b c bs chains Hc _ IH];
    intros i summary bytes Hdrop Hfuel Hlit Hpos Hlen Hb0 Hb1.
  - cbn. now rewrite app_nil_r, Z.add_0_r.
  - cbn [concat] in *. rewrite length_app in Hfuel, Hlen.
    rewrite fmap_app, total_app in *.
    assert (Hb : _buckets (this w) !! i = Some b).
    { rewrite <- (Nat.add_0_r i), <- lookup_drop, Hdrop. reflexivity. }
    assert (Hbucket : bucket (Z.of_nat i) w = Ret (b, w)).
    { unfold bucket, gets, bind. now apply index_ok. }
    assert (Hdrop' : drop (S i) (_buckets (this w)) = bs).
    { rewrite (drop_S _ _ _ Hb) in Hdrop. now injection Hdrop. }
    assert (Hrest : 0 <= total (literal_size ∘ lit <$> concat chains)).
    { apply total_nonneg, Forall_fmap, Forall_forall. intros a Ha.
      apply Hpos, elem_of_app. now right. }
    assert (Hfirst : 0 <= total (literal_size ∘ lit <$> c)).
    { apply total_nonneg, Forall_fmap, Forall_forall. intros a Ha.
      apply Hpos, elem_of_app. now left. }
    cbn [length for_loop].
    unfold bind at 1. unfold bind at 1. rewrite Hbucket. unfold bind at 1.
    rewrite (statistics_chain_spec w lit c fuel b 0 bytes Hc); try lia.
    + unfold ret at 1, NumberSeq_add.
      replace (Z.of_nat i + 1) with (Z.of_nat (S i)) by lia.
      rewrite (IH (S i) _ _ Hdrop'); try lia.
      * cbn [fmap list_fmap]. rewrite <- app_assoc, Z.add_0_l, Z.add_assoc.
        reflexivity.
      * intros a Ha. apply Hlit, elem_of_app. now right.
      * intros a Ha. apply Hpos, elem_of_app. now right.
    + intros a Ha. apply Hlit, elem_of_app. now left.
    + intros a Ha. apply Hpos, elem_of_app. now left.
Qed.

(** X14: [statistics_calculate] gives one sample per bucket, the length of
    its chain, in the order of the buckets, and the sum of [literal_size]
    over the payloads of all entries, the payload of an entry being what the
    barrier returns for it or, without a barrier, what the entry stores.
    The table is left as it was. *)
Theorem statistics_calculate_counts w (chains : list (list Z)) (fuel : nat)
    (lit : Z -> T) :
  table_ok w chains ->
  (forall p, p ∈ concat chains ->
             load_literal literal_load_barrier p w = Ret (lit p, w)) ->
  (forall p, p ∈ concat chains -> 0 <= literal_size (lit p)) ->
  (length (concat chains) < fuel)%nat ->
  Z.of_nat (length (concat chains)) <= INT_MAX ->
  total (literal_size ∘ lit <$> concat chains) <= INT_MAX ->
  statistics_calculate literal_size literal_load_barrier fuel w
  = Ret (((fun c => Z.of_nat (length c)) <$> chains,
          total (literal_size ∘ lit <$> concat chains)), w).
Proof.
  intros [Hch Hsz _] Hlit Hpos Hfuel Hlen Hbytes.
  unfold statistics_calculate. unfold bind at 1, table_size at 1, gets at 1.
  rewrite <- Hsz, Nat2Z.id.
  exact (statistics_loop_spec w lit fuel _ _ Hch O [] 0 eq_refl Hfuel Hlit Hpos
           Hlen ltac:(lia) ltac:(lia)).
Qed.

End Statistics.

Section StatisticsOfTables.

Variable literal_size : T -> Z.

(** Without a barrier the payload is the one the entry stores. *)
Lemma load_literal_stored w p e (l : T) :
  p <> NULL -> heap w !! p = Some e -> _literal e = Some l ->
  load_literal None p w = Ret (l, w).
Proof.
  intros Hp He Hl. unfold load_literal, entry_literal.
  rewrite (bind_Ret _ _ _ _ _ (load_ok _ _ _ Hp He)). now rewrite Hl.
Qed.

(** X15: a [resize] changes the distribution that [statistics_calculate]
    reports, not its totals: before there is one sample per old bucket,
    after one per new bucket, the samples add up to the same number of
    entries and the bytes of the literals are the same. *)
Theorem resize_keeps_statistics w (chains : list (list Z)) (new_size : Z)
    (fuel : nat) (buckets_new : Z) (rest : list Z) (lit : Z -> T) :
  table_ok w chains ->
  at_safepoint w = true ->
  0 < new_size <= INT_MAX ->
  c_heap w = buckets_new :: rest ->
  buckets_new <> NULL ->
  (length (concat chains) < fuel)%nat ->
  (forall p, p ∈ concat chains ->
             exists e, heap w !! p = Some e /\ _literal e = Some (lit p)) ->
  (forall p, p ∈ concat chains -> 0 <= literal_size (lit p)) ->
  Z.of_nat (length (concat chains)) <= INT_MAX ->
  total (literal_size ∘ lit <$> concat chains) <= INT_MAX ->
  exists w' (summary summary' : list Z) (bytes : Z),
    resize ASSERT fuel new_size w = Ret (true, w') /\
    statistics_calculate literal_size None fuel w = Ret ((summary, bytes), w) /\
    statistics_calculate literal_size None fuel w' = Ret ((summary', bytes), w') /\
    Z.of_nat (length summary) = _table_size (this w) /\
    Z.of_nat (length summary') = new_size /\
    total summary' = total summary.
Proof.
  intros Hok Hsp Hn Hmalloc Hnn Hfuel Hlit Hpos Hlen Hbytes.
  destruct (resize_spec w chains new_size fuel buckets_new rest
              Hok Hsp Hn Hmalloc Hnn Hfuel) as (h' & bn' & Hrun & Hmv).
  set (w' := resized new_size h' bn' rest w) in *.
  set (chains' := rehashed (heap w) new_size (concat chains)).
  assert (Hperm : concat chains' ≡ₚ concat chains)
    by (apply rehashed_Permutation; lia).
  assert (Hok' : table_ok w' chains')
    by (apply moved_table_ok; [lia | apply (ok_nodup _ _ Hok) | exact Hmv]).
  assert (Hnull : forall p, p ∈ concat chains -> p <> NULL).
  { intros p Hp ->.
    destruct (chains_elem _ _ _ _ (ok_chains _ _ Hok) Hp) as (b & c & Hc & Hin).
    exact (chain_not_NULL _ _ _ Hc Hin). }
  assert (Hlen' : length (concat chains') = length (concat chains))
    by apply Permutation_length, Hperm.
  assert (Htot : total (literal_size ∘ lit <$> concat chains')
                 = total (literal_size ∘ lit <$> concat chains))
    by (apply total_Permutation, fmap_Permutation, Hperm).
  exists w', ((fun c => Z.of_nat (length c)) <$> chains),
         ((fun c => Z.of_nat (length c)) <$> chains'),
         (total (literal_size ∘ lit <$> concat chains)).
  split; [exact Hrun|]. split; [|split; [|split; [|split]]].
  - destruct Hok as [Hch Hsz _].
    unfold statistics_calculate. unfold bind at 1, table_size at 1, gets at 1.
    rewrite <- Hsz, Nat2Z.id.
    refine (statistics_loop_spec literal_size None w lit fuel _ _ Hch O [] 0
              eq_refl Hfuel _ Hpos Hlen ltac:(lia) ltac:(lia)).
    intros p Hp. destruct (Hlit p Hp) as (e & He & Hl).
    exact (load_literal_stored w p e (lit p) (Hnull p Hp) He Hl).
  - rewrite <- Htot.
    destruct Hok' as [Hch' Hsz' _].
    unfold statistics_calculate. unfold bind at 1, table_size at 1, gets at 1.
    rewrite <- Hsz', Nat2Z.id.
    refine (statistics_loop_spec literal_size None w' lit fuel _ _ Hch' O [] 0
              eq_refl _ _ _ _ ltac:(lia) ltac:(lia)).
    + rewrite Hlen'. exact Hfuel.
    + intros p Hp. rewrite Hperm in Hp.
      destruct (Hlit p Hp) as (e & He & Hl).
      destruct (moved_same _ _ _ _ _ Hmv p Hp)
        as (e0 & e' & n & n' & He0 & He' & _ & Hl' & _).
      rewrite He in He0. injection He0 as <-.
      apply (load_literal_stored w' p e' (lit p) (Hnull p Hp) He').
      now rewrite Hl'.
    + intros p Hp. rewrite Hperm in Hp. now apply Hpos.
    + rewrite Hlen'. exact Hlen.
  - rewrite length_fmap, <- (ok_size _ _ Hok).
    f_equal. symmetry. exact (Forall2_length _ _ _ (ok_chains _ _ Hok)).
  - unfold chains', rehashed. rewrite !length_fmap, length_seq. lia.
  - rewrite !total_lengths. now rewrite Hlen'.
Qed.

End StatisticsOfTables.

End Proofs.

(** * The claims on the worked tables *)

(** Chains and tables that are written out are checked by computation. *)
Ltac solve_chain :=
  repeat (first [ apply chain_nil
                | eapply chain_cons;
                  [ discriminate | reflexivity | reflexivity | reflexivity
                  | reflexivity | ] ]).

Ltac solve_table_ok :=
  split; [ lazymatch goal with
           | |- Forall2 _ ?bs ?cs =>
               let bs' := eval vm_compute in bs in
               let cs' := eval vm_compute in cs in
               change bs with bs'; change cs with cs'
           end;
           repeat (constructor; [solve_chain|]); constructor
         | reflexivity
         | refine (bool_decide_unpack _ _); vm_compute; exact I ].

Ltac by_computation :=
  vm_compute; repeat split; first [reflexivity | discriminate].

(** [resize_preserves_entries] on the worked table, resized to three buckets. *)
Lemma resize_preserves_entries_witness :
  exists w' chains',
    resize true 4 3 ex_world = Ret (true, w') /\
    table_ok w' chains' /\
    entries (heap w') chains' ≡ₚ entries (heap ex_world) ex_chains /\
    concat chains' ≡ₚ concat ex_chains /\
    (forall p, p ∈ concat ex_chains -> same_entry (heap ex_world) (heap w') p).
Proof.
  apply (resize_preserves_entries true ex_world ex_chains 3 4 4096 []);
    [ solve_table_ok | reflexivity | unfold INT_MAX; lia | reflexivity
    | discriminate | simpl; lia ].
Defined.

(** [resize_rehashes] on the worked table, resized to three buckets. *)
Lemma resize_rehashes_witness :
  exists w' chains',
    resize true 4 3 ex_world = Ret (true, w') /\
    table_ok w' chains' /\
    concat chains' ≡ₚ concat ex_chains /\
    table_size w' = Ret (3, w') /\
    (forall (j : nat) c p,
        chains' !! j = Some c -> p ∈ c ->
        exists hv, entry_hash p w' = Ret (hv, w') /\
                   hash_to_index hv w' = Ret (Z.of_nat j, w') /\
                   bucket_index 3 hv = Ret (Z.of_nat j)).
Proof.
  apply (resize_rehashes true ex_world ex_chains 3 4 4096 []);
    [ solve_table_ok | reflexivity | unfold INT_MAX; lia | reflexivity
    | discriminate | simpl; lia ].
Defined.

(** [maybe_grow_decision] on the worked table, with room to grow to 8
    buckets and a load factor of 0. *)
Lemma maybe_grow_decision_witness :
  exists (grown : bool) w',
    maybe_grow true 4 8 0 ex_world = Ret (grown, w') /\
    (grown = true <->
     _table_size (this ex_world) < 8 /\
     _number_of_entries (this ex_world) ÷ _table_size (this ex_world) > 0) /\
    (grown = true -> hd NULL (c_heap ex_world) <> NULL ->
     _table_size (this w') = Z.min (_table_size (this ex_world) * 2) 8).
Proof.
  apply (maybe_grow_decision true ex_world ex_chains 4 8 0);
    [ solve_table_ok | reflexivity | reflexivity | unfold INT_MAX; simpl; lia
    | unfold INT_MAX; lia | simpl; lia ].
Defined.

(** The run behind it: the worked table grows from 2 to 4 buckets. *)
Example maybe_grow_run :
  exists w',
    maybe_grow true 4 8 0 ex_world = Ret (true, w') /\
    _table_size (this w') = 4 /\ _buckets (this w') = [16; 0; 32; 48].
Proof. eexists. split; [vm_compute; reflexivity | by_computation]. Qed.

(** [resize_allocation_failure] on the worked table with an empty C heap. *)
Lemma resize_allocation_failure_witness :
  exists w',
    resize true 4 3 ex_world_oom = Ret (false, w') /\
    this w' = this ex_world_oom /\ heap w' = heap ex_world_oom /\
    output w' = output ex_world_oom.
Proof.
  apply (resize_allocation_failure true ex_world_oom 3 4); reflexivity.
Defined.

(** [new_entry_block_length] on a fresh table of ten buckets. *)
Lemma new_entry_block_length_witness :
  exists w',
    new_entry true EXIT_OOM 7 (fresh_world 10 [4096]) = Ret (4096, w') /\
    _entry_blocks (this w') = _entry_blocks (this (fresh_world 10 [4096])) ++ [4096] /\
    new_block_size (this (fresh_world 10 [4096]))
    = Z.min 512 (Z.max (_table_size (this (fresh_world 10 [4096])) ÷ 2)
                       (_number_of_entries (this (fresh_world 10 [4096])))) /\
    (exists k : Z,
        0 <= k /\ _end_block (this w') - 4096 = 2 ^ k /\
        2 ^ k <= _entry_size (this (fresh_world 10 [4096]))
                 * new_block_size (this (fresh_world 10 [4096])) < 2 ^ (k + 1)) /\
    (_entry_size (this (fresh_world 10 [4096])) = 16 ->
     _table_size (this (fresh_world 10 [4096])) = 10 ->
     _number_of_entries (this (fresh_world 10 [4096])) = 0 ->
     new_block_size (this (fresh_world 10 [4096])) = 5 /\
     _entry_size (this (fresh_world 10 [4096]))
     * new_block_size (this (fresh_world 10 [4096])) = 80 /\
     _end_block (this w') - 4096 = 64).
Proof.
  apply (new_entry_block_length true EXIT_OOM (fresh_world 10 [4096]) 7 4096 []);
    by_computation.
Defined.

(** The scenario of C5, run: the block of the first entry of a table of ten
    buckets is 64 bytes long. *)
Example new_entry_first_block :
  exists w',
    new_entry true EXIT_OOM 7 (fresh_world 10 [4096]) = Ret (4096, w') /\
    _entry_blocks (this w') = [4096] /\
    _first_free_entry (this w') = 4096 + 16 /\
    _end_block (this w') = 4096 + 64.
Proof. eexists. split; [vm_compute; reflexivity | by_computation]. Qed.

(** C5 as stated fails for a table too small to give a length.  With one
    bucket and no entry the free list is empty and there is no block, so a
    block has to be laid out; it is meant for [min(512, max(1 / 2, 0)) = 0]
    entries, the raw length is 0, [log2_int] gives -1 and [1 << -1] is no
    length at all: nothing is laid out and nothing is returned, in a debug
    build as in a product build. *)
Lemma new_entry_zero_length_block :
  _free_list (this (fresh_world 1 [4096])) = NULL /\
  _first_free_entry (this (fresh_world 1 [4096]))
    + _entry_size (this (fresh_world 1 [4096]))
    >= _end_block (this (fresh_world 1 [4096])) /\
  new_block_size (this (fresh_world 1 [4096])) = 0 /\
  log2_int (_entry_size (this (fresh_world 1 [4096]))
            * new_block_size (this (fresh_world 1 [4096]))) = -1 /\
  shl_one (-1) = Err UndefinedBehaviour /\
  new_entry true EXIT_OOM 7 (fresh_world 1 [4096]) = Err UndefinedBehaviour /\
  new_entry false EXIT_OOM 7 (fresh_world 1 [4096]) = Err UndefinedBehaviour /\
  ~ (exists (debug : bool) r,
        new_entry debug EXIT_OOM 7 (fresh_world 1 [4096]) = Ret r).
Proof.
  assert (E1 : new_entry true EXIT_OOM 7 (fresh_world 1 [4096])
               = Err UndefinedBehaviour) by (vm_compute; reflexivity).
  assert (E2 : new_entry false EXIT_OOM 7 (fresh_world 1 [4096])
               = Err UndefinedBehaviour) by (vm_compute; reflexivity).
  split; [reflexivity|]. split; [vm_compute; discriminate|].
  split; [reflexivity|]. split; [reflexivity|]. split; [reflexivity|].
  split; [exact E1|]. split; [exact E2|].
  intros ([|] & r & Hr); [rewrite E1 in Hr | rewrite E2 in Hr]; discriminate.
Qed.

(** In a product build the block may be shorter than one entry and is laid
    out all the same: 24 byte entries in a table of two buckets get a block
    of 16 bytes. *)
Example product_build_short_block_run :
  exists w',
    new_entry false EXIT_OOM 7 short_block_world = Ret (4096, w') /\
    new_block_size (this short_block_world) = 1 /\
    _end_block (this w') - 4096 = 16.
Proof. eexists. split; [vm_compute; reflexivity | by_computation]. Qed.

(** C6 at the failing input.  The free list is empty and the current block
    has 16 bytes left, room for one entry of 16 bytes; [new_entry] leaves
    them unused, takes a new block from the C heap and returns its first
    slot.  The world is the one three calls of [new_entry] leave behind in
    the table of C5. *)
Theorem new_entry_skips_last_slot :
  (exists w1 w2,
      new_entry true EXIT_OOM 1 (fresh_world 10 [4096; 8192]) = Ret (4096, w1) /\
      new_entry true EXIT_OOM 2 w1 = Ret (4112, w2) /\
      new_entry true EXIT_OOM 3 w2 = Ret (4128, last_slot_world)) /\
  _free_list (this last_slot_world) = NULL /\
  _end_block (this last_slot_world) - _first_free_entry (this last_slot_world)
  = _entry_size (this last_slot_world) /\
  exists w',
    new_entry true EXIT_OOM 7 last_slot_world = Ret (8192, w') /\
    _entry_blocks (this last_slot_world) = [4096] /\
    _entry_blocks (this w') = [4096; 8192] /\
    c_heap w' = [].
Proof.
  split; [|split; [reflexivity|split; [reflexivity|]]].
  - do 2 eexists. split; [vm_compute; reflexivity|].
    split; [vm_compute; reflexivity|].
    vm_compute; reflexivity.
  - eexists. split; [vm_compute; reflexivity | by_computation].
Qed.



(** C8 as stated fails: after 33 insertions into 16 buckets the load is 2,
    [maybe_grow] with load factor 2 answers [false] and there are still 16
    buckets, not 32. *)
Lemma maybe_grow_33_entries_no_resize :
  exists w,
    insert_all true EXIT_OOM (hashes 33) (fresh_world 16 (blocks 12)) = Ret (tt, w) /\
    _number_of_entries (this w) = 33 /\
    _number_of_entries (this w) ÷ _table_size (this w) = 2 /\
    maybe_grow true 100 64 2 w = Ret (false, w) /\
    _table_size (this w) = 16 /\
    ~ (exists w', maybe_grow true 100 64 2 w = Ret (true, w')).
Proof.
  eexists. split; [vm_compute; reflexivity|].
  split; [reflexivity|]. split; [reflexivity|].
  split; [vm_compute; reflexivity|]. split; [reflexivity|].
  intros [w' Hw']. vm_compute in Hw'. discriminate.
Qed.

(** [maybe_grow_after_33_inserts] for the hashes 0 to 32. *)
Lemma maybe_grow_after_33_inserts_witness :
  exists w,
    insert_all true EXIT_OOM (hashes 33) (fresh_world 16 (blocks 12)) = Ret (tt, w) /\
    _number_of_entries (this w) = 33 /\
    _table_size (this w) = 16 /\
    int_div (_number_of_entries (this w)) (_table_size (this w)) = Ret 2 /\
    maybe_grow true 100 64 2 w = Ret (false, w).
Proof.
  eexists. split; [vm_compute; reflexivity|].
  eapply (maybe_grow_after_33_inserts true EXIT_OOM (fresh_world 16 (blocks 12)) (hashes 33));
    by_computation.
Defined.

(** [verify_table_checks_count] on the worked table, with a hook that always
    comes back. *)
Lemma verify_table_checks_count_witness :
  (exists max_bucket_count max_bucket_number,
      count_entries (fun _ _ => true) 4 ex_world
      = Ret ((Z.of_nat (length (concat ex_chains)), max_bucket_count,
              max_bucket_number),
             with_output (output ex_world ++ (VerifyEntry <$> concat ex_chains))
                         ex_world)) /\
  (_number_of_entries (this ex_world) <> Z.of_nat (length (concat ex_chains)) <->
   verify_table (fun _ _ => true) 4 "Dictionary" ex_world
   = Err (GuaranteeFailed ("Verify of " +:+ "Dictionary" +:+ " failed"))) /\
  (_number_of_entries (this ex_world) = Z.of_nat (length (concat ex_chains)) <->
   exists evs,
     verify_table (fun _ _ => true) 4 "Dictionary" ex_world
     = Ret (tt, with_output
                  (output ex_world ++ (VerifyEntry <$> concat ex_chains) ++ evs)
                  ex_world)).
Proof.
  apply (verify_table_checks_count (fun _ _ => true) ex_world ex_chains 4 "Dictionary");
    [ solve_table_ok | reflexivity | simpl; lia | by_computation ].
Defined.

(** The run of [verify_table] on the worked table, and on the same table
    with a wrong count. *)
Example verify_table_run :
  exists w',
    verify_table (fun _ _ => true) 4 "Dictionary" ex_world = Ret (tt, w') /\
    this w' = this ex_world /\ heap w' = heap ex_world /\
    output w' = [VerifyEntry 16; VerifyEntry 32; VerifyEntry 48;
                 LogInfo "Dictionary" 2 0 3 2;
                 LogDebugProbe 0 4; LogDebugProbe 0 6; LogDebugBucket 0 2;
                 LogDebugProbe 1 7; LogDebugBucket 1 1].
Proof. eexists. split; [vm_compute; reflexivity | by_computation]. Qed.

Example verify_table_wrong_count :
  verify_table (fun _ _ => true) 4 "Dictionary"
    (with_this (with_number_of_entries 4 ex_table) ex_world)
  = Err (GuaranteeFailed "Verify of Dictionary failed").
Proof. vm_compute. reflexivity. Qed.

(** A hook that fails ends the verification at once. *)
Example verify_table_hook_fails :
  verify_table (fun _ p => negb (p =? 32)) 4 "Dictionary" ex_world
  = Err (EntryVerifyFailed 32).
Proof. vm_compute. reflexivity. Qed.

(** C9 as stated fails when a hook does not come back.  The hook of the
    entry at 32 fails.  On the worked table, whose count is right, the
    verification does not complete; on the same table with a wrong count it
    does not end in the [guarantee] that names the table: in both cases it
    ends with the failure of the hook. *)
Lemma verify_table_hook_failure_decides :
  _number_of_entries (this ex_world) = Z.of_nat (length (concat ex_chains)) /\
  verify_table ex_verify 4 "Dictionary" ex_world = Err (EntryVerifyFailed 32) /\
  ~ (exists w', verify_table ex_verify 4 "Dictionary" ex_world = Ret (tt, w')) /\
  _number_of_entries (this (with_this (with_number_of_entries 4 ex_table) ex_world))
  <> Z.of_nat (length (concat ex_chains)) /\
  verify_table ex_verify 4 "Dictionary"
    (with_this (with_number_of_entries 4 ex_table) ex_world)
  = Err (EntryVerifyFailed 32) /\
  verify_table ex_verify 4 "Dictionary"
    (with_this (with_number_of_entries 4 ex_table) ex_world)
  <> Err (GuaranteeFailed "Verify of Dictionary failed").
Proof.
  assert (E1 : verify_table ex_verify 4 "Dictionary" ex_world
               = Err (EntryVerifyFailed 32)) by (vm_compute; reflexivity).
  assert (E2 : verify_table ex_verify 4 "Dictionary"
                 (with_this (with_number_of_entries 4 ex_table) ex_world)
               = Err (EntryVerifyFailed 32)) by (vm_compute; reflexivity).
  split; [reflexivity|]. split; [exact E1|]. split.
  - intros [w' Hw']. rewrite E1 in Hw'. discriminate.
  - split; [vm_compute; discriminate|]. split; [exact E2|].
    rewrite E2. discriminate.
Qed.

(** [allocate_new_entry_initialises] on the worked table; [new_entry] is
    run on a table with a free list, whose head it returns with the link
    into the free list still in it. *)
Lemma allocate_new_entry_initialises_witness :
  (exists w',
      allocate_new_entry EXIT_OOM 9 900 ex_world = Ret (4096, w') /\
      heap w' = <[4096 := mkEntry (Some 9) (Some NULL) (Some 900)]> (heap ex_world) /\
      entry_hash 4096 w' = Ret (9, w') /\
      entry_literal 4096 w' = Ret (900, w') /\
      entry_next 4096 w' = Ret (NULL, w') /\
      this w' = this ex_world) /\
  (exists w',
      new_entry true EXIT_OOM 7 free_list_world = Ret (64, w') /\
      64 <> NULL /\
      entry_hash 64 w' = Ret (7, w') /\
      (forall a, a <> 64 -> heap w' !! a = heap free_list_world !! a) /\
      heap w' !! 64
      = Some (mkEntry (Some 7)
                      (_next (default raw_entry (heap free_list_world !! 64)))
                      (_literal (default raw_entry (heap free_list_world !! 64))))).
Proof.
  destruct (allocate_new_entry_initialises true EXIT_OOM ex_world 9 900 4096 []
              eq_refl ltac:(discriminate)) as (Halloc & Honly & Hreturns).
  split; [exact Halloc|].
  destruct (Hreturns free_list_world 7) as (entry & w' & Hrun & Hnn & Hhash & Hrest).
  - reflexivity.
  - left. split; [discriminate|].
    exists (mkEntry (Some 5) (Some 96) (Some 500)), 96. split; reflexivity.
  - assert (Hentry : 64 = entry).
    { pose proof Hrun as Hrun'. vm_compute in Hrun'. now injection Hrun'. }
    destruct Hentry.
    exists w'. split; [exact Hrun|]. split; [exact Hnn|].
    split; [exact Hhash|]. split; [exact Hrest|].
    exact (Honly free_list_world 7 64 w' Hrun).
Defined.

(** The link of an entry [new_entry] returns is what the storage held: with
    storage never written there is no link to read, and an entry from the
    free list still points to the rest of the free list. *)
Example new_entry_link_unspecified :
  (exists w', new_entry true EXIT_OOM 7 (fresh_world 10 [4096]) = Ret (4096, w') /\
              entry_next 4096 w' = Err UndefinedBehaviour) /\
  (exists w', new_entry true EXIT_OOM 7
                (with_this (with_free_list 16 ex_table) ex_world) = Ret (16, w') /\
              _free_list (this w') = 32 /\
              entry_next 16 w' = Ret (32, w') /\
              c_heap w' = c_heap ex_world /\
              _entry_blocks (this w') = _entry_blocks ex_table).
Proof.
  split; eexists; (split; [vm_compute; reflexivity|]); by_computation.
Qed.

(** C3 as stated fails.  A table of 16 buckets holds 48 entries, the load
    3 is above the load factor 2 and [max_size] is 64; the C heap has no
    bucket array to give.  [maybe_grow] answers [true] and the table still
    has 16 buckets, not [min(16 * 2, 64) = 32]. *)
Lemma maybe_grow_true_without_growth :
  exists w,
    insert_all true EXIT_OOM (hashes 48) (fresh_world 16 (blocks 12)) = Ret (tt, w) /\
    _table_size (this w) = 16 /\
    _number_of_entries (this w) ÷ _table_size (this w) = 3 /\
    maybe_grow true 100 64 2 (with_c_heap [] w) = Ret (true, with_c_heap [] w) /\
    _table_size (this (with_c_heap [] w)) = 16 /\
    Z.min (_table_size (this w) * 2) 64 = 32.
Proof.
  eexists. split; [vm_compute; reflexivity|].
  split; [reflexivity|]. split; [reflexivity|].
  split; [vm_compute; reflexivity|]. split; reflexivity.
Qed.

(** A table without buckets is outside of what [maybe_grow] is meant for:
    the load is a division by zero. *)
Example maybe_grow_without_buckets :
  maybe_grow true 1 8 0 (fresh_world 0 [4096]) = Err UndefinedBehaviour.
Proof. vm_compute. reflexivity. Qed.

(** With a bucket array at hand the same table does grow to 32 buckets. *)
Example maybe_grow_48_entries_grows :
  exists w w',
    insert_all true EXIT_OOM (hashes 48) (fresh_world 16 (blocks 12)) = Ret (tt, w) /\
    maybe_grow true 100 64 2 (with_c_heap [65536] w) = Ret (true, w') /\
    _table_size (this w') = 32 /\
    length (_buckets (this w')) = 32%nat.
Proof.
  do 2 eexists. split; [vm_compute; reflexivity|].
  split; [vm_compute; reflexivity|]. split; reflexivity.
Qed.

(** * Further properties on the worked tables *)

Ltac by_elements H :=
  cbn in H;
  repeat (apply elem_of_cons in H as [->|H]; [by_computation|]);
  now apply not_elem_of_nil in H.

(** [new_entry_takes_free_list_head]: the entry at 64 is handed out and 96
    becomes the head of the free list. *)
Lemma new_entry_takes_free_list_head_witness :
  exists w',
    new_entry true EXIT_OOM 7 free_list_world = Ret (64, w') /\
    _free_list (this w') = make_ptr 96 /\
    _entry_blocks (this w') = _entry_blocks (this free_list_world) /\
    _first_free_entry (this w') = _first_free_entry (this free_list_world) /\
    _end_block (this w') = _end_block (this free_list_world) /\
    c_heap w' = c_heap free_list_world /\
    entry_hash 64 w' = Ret (7, w') /\
    entry_next 64 w' = Ret (make_ptr 96, w') /\
    (forall a, a <> 64 -> heap w' !! a = heap free_list_world !! a).
Proof.
  apply (new_entry_takes_free_list_head true EXIT_OOM free_list_world 7 64 96
           (mkEntry (Some 5) (Some 96) (Some 500))); by_computation.
Defined.


(** [new_entry_fits_block] for the same call. *)
Lemma new_entry_fits_block_witness :
  _first_free_entry
    (this (world_after (new_entry true EXIT_OOM 7 block_world) block_world))
  = 4112 + _entry_size (this block_world) /\
  _first_free_entry
    (this (world_after (new_entry true EXIT_OOM 7 block_world) block_world))
  <= _end_block
       (this (world_after (new_entry true EXIT_OOM 7 block_world) block_world)).
Proof.
  apply (new_entry_fits_block true EXIT_OOM block_world 7 4112
           (world_after (new_entry true EXIT_OOM 7 block_world) block_world));
    vm_compute; reflexivity.
Defined.

(** [new_entry_short_block]: entries of 24 bytes in a table of two buckets;
    the block for one entry is 16 bytes long.  The debug build stops at the
    assertion, the product build hands out the entry at 4096, which reaches
    8 bytes beyond its block. *)
Lemma new_entry_short_block_witness :
  new_entry true EXIT_OOM 7 short_block_world = Err (AssertionFailed "") /\
  exists w',
    new_entry false EXIT_OOM 7 short_block_world = Ret (4096, w') /\
    _entry_blocks (this w') = _entry_blocks (this short_block_world) ++ [4096] /\
    _end_block (this w') < 4096 + _entry_size (this short_block_world) /\
    _end_block (this w') < _first_free_entry (this w').
Proof.
  split.
  - apply (new_entry_short_block true EXIT_OOM short_block_world 7 4096 []);
      by_computation.
  - apply (new_entry_short_block false EXIT_OOM short_block_world 7 4096 []);
      by_computation.
Defined.

(** [Hashtable_new_entry_reads_back] for the first entry of a fresh table. *)
Lemma Hashtable_new_entry_reads_back_witness :
  4096 <> NULL /\
  entry_hash 4096
    (world_after (Hashtable_new_entry true EXIT_OOM 7 700 (fresh_world 10 [4096]))
       (fresh_world 10 [4096]))
  = Ret (7, world_after (Hashtable_new_entry true EXIT_OOM 7 700
                           (fresh_world 10 [4096])) (fresh_world 10 [4096])) /\
  entry_literal 4096
    (world_after (Hashtable_new_entry true EXIT_OOM 7 700 (fresh_world 10 [4096]))
       (fresh_world 10 [4096]))
  = Ret (700, world_after (Hashtable_new_entry true EXIT_OOM 7 700
                             (fresh_world 10 [4096])) (fresh_world 10 [4096])).
Proof.
  destruct (Hashtable_new_entry_reads_back true EXIT_OOM (fresh_world 10 [4096])
              7 700 4096
              (world_after (Hashtable_new_entry true EXIT_OOM 7 700
                              (fresh_world 10 [4096])) (fresh_world 10 [4096])))
    as (Hnn & Hh & Hl & _).
  - vm_compute. reflexivity.
  - split; [exact Hnn | split; [exact Hh | exact Hl]].
Defined.

(** [resize_chain_order] on the worked table, resized to three buckets. *)
Lemma resize_chain_order_witness :
  exists w',
    resize true 4 3 ex_world = Ret (true, w') /\
    length (_buckets (this w')) = Z.to_nat 3 /\
    (forall (j : nat) (hd : Z),
        _buckets (this w') !! j = Some hd ->
        chain (heap w') hd
          (reverse (filter (fun p => slot (heap ex_world) 3 p = j)
                      (concat ex_chains)))).
Proof.
  apply (resize_chain_order true ex_world ex_chains 3 4 4096 []);
    [ solve_table_ok | reflexivity | unfold INT_MAX; lia | reflexivity
    | discriminate | simpl; lia ].
Defined.

(** [resize_frame] on the worked table, resized to three buckets. *)
Lemma resize_frame_witness :
  exists w',
    resize true 4 3 ex_world = Ret (true, w') /\
    _number_of_entries (this w') = _number_of_entries (this ex_world) /\
    _entry_size (this w') = _entry_size (this ex_world) /\
    _free_list (this w') = _free_list (this ex_world) /\
    _first_free_entry (this w') = _first_free_entry (this ex_world) /\
    _end_block (this w') = _end_block (this ex_world) /\
    _entry_blocks (this w') = _entry_blocks (this ex_world) /\
    output w' = output ex_world /\
    c_heap w' = [] /\
    (forall a, a ∉ concat ex_chains -> heap w' !! a = heap ex_world !! a).
Proof.
  apply (resize_frame true ex_world ex_chains 3 4 4096 []);
    [ solve_table_ok | reflexivity | unfold INT_MAX; lia | reflexivity
    | discriminate | simpl; lia ].
Defined.

(** [resize_via_other_size] on the worked table: to five buckets, directly
    and by way of three. *)
Lemma resize_via_other_size_witness :
  exists wa wab chains_ab wb chains_b,
    resize true 4 3 ex_world_two_blocks = Ret (true, wa) /\
    resize true 4 5 wa = Ret (true, wab) /\
    resize true 4 5 ex_world_two_blocks = Ret (true, wb) /\
    table_ok wab chains_ab /\
    table_ok wb chains_b /\
    Forall2 (≡ₚ) chains_ab chains_b /\
    (forall p, p ∈ concat ex_chains ->
               entry_view (heap wab) p = entry_view (heap wb) p).
Proof.
  apply (resize_via_other_size true ex_world_two_blocks ex_chains 3 5 4 4096 8192 []);
    [ solve_table_ok | reflexivity | unfold INT_MAX; lia | unfold INT_MAX; lia
    | reflexivity | discriminate | discriminate | simpl; lia ].
Defined.

(** [resize_to_zero] on the worked table. *)
Lemma resize_to_zero_witness :
  resize true 4 0 ex_world = Err UndefinedBehaviour.
Proof.
  apply (resize_to_zero true ex_world ex_chains 4 4096 []);
    [ solve_table_ok | discriminate | reflexivity | reflexivity | discriminate
    | lia ].
Defined.

(** [resize_keeps_count] on the worked table, resized to three buckets. *)
Lemma resize_keeps_count_witness :
  exists w' (counted : Z) m1 m2 m1' m2' w1 w1',
    resize true 4 3 ex_world = Ret (true, w') /\
    _number_of_entries (this w') = _number_of_entries (this ex_world) /\
    count_entries (fun _ _ => true) 4 ex_world = Ret ((counted, m1, m2), w1) /\
    count_entries (fun _ _ => true) 4 w' = Ret ((counted, m1', m2'), w1') /\
    counted = Z.of_nat (length (concat ex_chains)).
Proof.
  apply (resize_keeps_count true ex_world ex_chains 3 4 4096 []);
    [ solve_table_ok | reflexivity | unfold INT_MAX; lia | reflexivity
    | discriminate | simpl; lia | unfold INT_MAX; simpl; lia ].
Defined.


(** [verify_table_stops_at_failing_hook] on the worked table, with a hook
    that fails for the entry at 32. *)
Lemma verify_table_stops_at_failing_hook_witness :
  count_entries ex_verify 4 ex_world = Err (EntryVerifyFailed 32) /\
  verify_table ex_verify 4 "ExampleTable" ex_world = Err (EntryVerifyFailed 32).
Proof.
  apply (verify_table_stops_at_failing_hook ex_verify ex_world ex_chains 4
           "ExampleTable" [16] 32 [48]);
    [ solve_table_ok | reflexivity | intros a Ha; by_elements Ha | reflexivity
    | simpl; lia ].
Defined.

(** [count_entries_longest_chain] on the worked table, with a hook that
    always comes back. *)
Lemma count_entries_longest_chain_witness :
  exists (max_bucket_count max_bucket_number : Z) w',
    count_entries (fun _ _ => true) 4 ex_world
    = Ret ((Z.of_nat (length (concat ex_chains)), max_bucket_count,
            max_bucket_number), w') /\
    (forall c, c ∈ ex_chains -> Z.of_nat (length c) <= max_bucket_count) /\
    ((max_bucket_count = 0 /\ max_bucket_number = 0) \/
     exists (k : nat) c,
       max_bucket_number = Z.of_nat k /\ ex_chains !! k = Some c /\
       Z.of_nat (length c) = max_bucket_count /\
       forall (k' : nat) c', (k' < k)%nat -> ex_chains !! k' = Some c' ->
                             Z.of_nat (length c') < max_bucket_count).
Proof.
  apply (count_entries_longest_chain (fun _ _ => true) ex_world ex_chains 4);
    [ solve_table_ok | reflexivity | simpl; lia | unfold INT_MAX; simpl; lia ].
Defined.

(** [statistics_calculate_counts] on the worked table, without a barrier. *)
Lemma statistics_calculate_counts_witness :
  statistics_calculate ex_literal_size None 4 ex_world
  = Ret (((fun c => Z.of_nat (length c)) <$> ex_chains,
          total (ex_literal_size ∘ ex_literal <$> concat ex_chains)), ex_world).
Proof.
  apply (statistics_calculate_counts ex_literal_size None ex_world ex_chains 4
           ex_literal);
    [ solve_table_ok | intros p Hp; by_elements Hp | intros p Hp; by_elements Hp
    | simpl; lia | unfold INT_MAX; simpl; lia | apply Z.leb_le; reflexivity ].
Defined.

(** [resize_keeps_statistics] on the worked table, resized to three
    buckets. *)
Lemma resize_keeps_statistics_witness :
  exists w' (summary summary' : list Z) (bytes : Z),
    resize true 4 3 ex_world = Ret (true, w') /\
    statistics_calculate ex_literal_size None 4 ex_world
    = Ret ((summary, bytes), ex_world) /\
    statistics_calculate ex_literal_size None 4 w' = Ret ((summary', bytes), w') /\
    Z.of_nat (length summary) = _table_size (this ex_world) /\
    Z.of_nat (length summary') = 3 /\
    total summary' = total summary.
Proof.
  apply (resize_keeps_statistics true ex_literal_size ex_world ex_chains 3 4
           4096 [] ex_literal);
    [ solve_table_ok | reflexivity | unfold INT_MAX; lia | reflexivity
    | discriminate | simpl; lia
    | intros p Hp; cbn in Hp;
      repeat (apply elem_of_cons in Hp as [->|Hp];
              [eexists; split; vm_compute; reflexivity|]);
      now apply not_elem_of_nil in Hp
    | intros p Hp; by_elements Hp | unfold INT_MAX; simpl; lia
    | apply Z.leb_le; reflexivity ].
Defined.

(** The statistics of the worked table, run: chains of two and one entries,
    600 words of payload. *)
Example statistics_calculate_run :
  statistics_calculate ex_literal_size None 4 ex_world
  = Ret (([2; 1], 4800), ex_world).
Proof. vm_compute. reflexivity. Qed.
